(** * expo-sqlite (next): prepared-statement facade

    A shallow embedding of [src/next/SQLiteStatement.ts] and of the
    declarations of [src/next/NativeStatement.ts]:

    - [normalizeParams], the bind-parameter normalizer;
    - [composeRow] and [composeRows], the row composer;
    - the [SQLiteStatement] class: [getColumnNames], [get], [all] and the
      [each] generators, in their blocking and suspending variants, written
      over the native statement handle the class wraps.

    JavaScript values are a closed inductive type, objects used as records
    are finite maps from property names to values, exceptions are an error
    result, and every call into the native handle is recorded in a log so
    that the number of native round trips can be stated. *)

From Stdlib Require Import PrimFloat DecimalString.
From stdpp Require Import gmap strings list fin_maps.

#[local] Set Warnings "-register-all,-clear-no-such-hyp".


(** ** JavaScript values *)

Module JS.

(** The values that cross the facade: the primitives, arrays, and plain
    objects read as property maps.  A number is an IEEE 754 double. *)
Inductive JsValue : Type :=
| JsUndefined
| JsNull
| JsBoolean (b : bool)
| JsNumber (x : float)
| JsString (s : string)
| JsArray (elements : list JsValue)
| JsObject (properties : gmap string JsValue).

(** The [typeof] operator. *)
Definition typeof (v : JsValue) : string :=
  match v with
  | JsUndefined => "undefined"
  | JsNull => "object"
  | JsBoolean _ => "boolean"
  | JsNumber _ => "number"
  | JsString _ => "string"
  | JsArray _ => "object"
  | JsObject _ => "object"
  end.

(** [v == null]: loose equality with [null] holds of [null] and
    [undefined] only. *)
Definition loose_eq_null (v : JsValue) : bool :=
  match v with
  | JsUndefined | JsNull => true
  | _ => false
  end.

(** [Array.isArray(v)]. *)
Definition isArray (v : JsValue) : bool :=
  match v with
  | JsArray _ => true
  | _ => false
  end.

(** [a[i]] on an array: [undefined] beyond the end. *)
Definition element (a : list JsValue) (i : nat) : JsValue :=
  default JsUndefined (a !! i).

(** A thrown [Error] object, identified by its message. *)
Record JsError : Type := Error { message : string }.

(** How a call completes: with a value, or by throwing. *)
Inductive Completion (A : Type) : Type :=
| Normal (a : A)
| Throw (e : JsError).

Arguments Normal {A} a.
Arguments Throw {A} e.

(** [`${n}`] for a length. *)
Definition decimal (n : nat) : string :=
  NilZero.string_of_uint (Nat.to_uint n).

End JS.

Export JS.

(** ** NativeStatement.ts: the binding types *)

Module Binding.

(** [SQLiteBindValue = string | number | null | boolean]. *)
Definition SQLiteBindValue (v : JsValue) : Prop :=
  match v with
  | JsString _ | JsNumber _ | JsNull | JsBoolean _ => True
  | _ => False
  end.

(** A value that is an array or an object, the two shapes of
    [SQLiteBindParams]. *)
Definition composite (v : JsValue) : Prop :=
  match v with
  | JsArray _ | JsObject _ => True
  | _ => False
  end.

(** An object that is not an array: the named form. *)
Definition mapping (v : JsValue) : Prop :=
  match v with
  | JsObject _ => True
  | _ => False
  end.

End Binding.

Export Binding.

(** [SQLiteColumnNames = string[]], [SQLiteColumnValues = any[]], and a
    composed row: an object created by [{}] and filled by assignments
    [row[name] = value], read as the finite map of its own properties. *)
Abbreviation SQLiteColumnNames := (list string).
Abbreviation SQLiteColumnValues := (list JsValue).
Abbreviation Row := (gmap string JsValue).

(** ** SQLiteStatement.ts: normalizer and row composer *)

Record NormalizedParams : Type := {
  params : JsValue;
  shouldPassAsObject : bool
}.

(** [normalizeParams(...params)].  The rest parameter is the list of the
    arguments; [params[0]] of an empty list is [undefined]. *)
Definition normalizeParams (args : list JsValue) : NormalizedParams :=
  let bindParams :=
    if bool_decide (1 < length args) then JsArray args else element args 0 in
  let bindParams :=
    if loose_eq_null bindParams then JsArray [] else bindParams in
  let bindParams :=
    if bool_decide (typeof bindParams ≠ "object") then JsArray [bindParams]
    else bindParams in
  let shouldPassAsObject := negb (isArray bindParams) in
  {| params := bindParams; shouldPassAsObject := shouldPassAsObject |}.

(** The error both composers throw. *)
Definition count_mismatch (names values : nat) : JsError :=
  Error ("Column names and values count mismatch. Names: " +:+ decimal names
         +:+ ", Values: " +:+ decimal values).

(** What an object under construction inherits from: [Object.prototype],
    as every [{}] does at first, nothing, or a value made its prototype.
    The values are plain data: an object value inherits from
    [Object.prototype], an array through [Array.prototype] from it. *)
Inductive Prototype : Type :=
| ObjectPrototype
| NullPrototype
| ValuePrototype (v : JsValue).

(** An object under construction: its prototype and its own properties,
    all of them writable data properties. *)
Record RowObject : Type := MkRowObject {
  prototype : Prototype;
  own : Row
}.

(** Whether an assignment to [__proto__] that finds no own property
    reaches the accessor of [Object.prototype]: it does unless the chain
    ends before, or an object on it has a data property of that name. *)
Definition reaches_proto_accessor (p : Prototype) : bool :=
  match p with
  | ObjectPrototype => true
  | NullPrototype => false
  | ValuePrototype (JsObject properties) =>
      bool_decide (properties !! "__proto__" = None)
  | ValuePrototype _ => true
  end.

(** The setter of the [__proto__] accessor: an object or [null] becomes
    the prototype, any other value is ignored.  No own property is
    made. *)
Definition set_prototype (o : RowObject) (value : JsValue) : RowObject :=
  match value with
  | JsNull => MkRowObject NullPrototype (own o)
  | JsArray _ | JsObject _ => MkRowObject (ValuePrototype value) (own o)
  | _ => o
  end.

(** [o[key] = value].  An own property is overwritten; otherwise the
    prototype chain is asked: the only setter on it is that of
    [__proto__], every other property found there is a writable data
    property, and then, as when nothing is found, [o] gains the own
    property. *)
Definition assign (o : RowObject) (key : string) (value : JsValue)
    : RowObject :=
  if bool_decide (key = "__proto__") && bool_decide (own o !! key = None)
     && reaches_proto_accessor (prototype o)
  then set_prototype o value
  else MkRowObject (prototype o) (<[key := value]> (own o)).

(** One turn of the loop body [row[columnNames[i]] = columnValues[i]]. *)
Definition assign_column (columnNames : SQLiteColumnNames)
    (columnValues : SQLiteColumnValues) (o : RowObject) (i : nat)
    : RowObject :=
  assign o (default "undefined" (columnNames !! i)) (element columnValues i).

(** [for (let i = 0; i < columnNames.length; i++) ...] run on the object
    [{}] holding the properties [row]; the own properties it ends with. *)
Definition assign_columns (columnNames : SQLiteColumnNames)
    (columnValues : SQLiteColumnValues) (row : Row) : Row :=
  own (foldl (assign_column columnNames columnValues)
             (MkRowObject ObjectPrototype row)
             (seq 0 (length columnNames))).

(** [composeRow(columnNames, columnValues)]. *)
Definition composeRow (columnNames : SQLiteColumnNames)
    (columnValues : SQLiteColumnValues) : Completion Row :=
  let row : Row := ∅ in
  if bool_decide (length columnNames ≠ length columnValues) then
    Throw (count_mismatch (length columnNames) (length columnValues))
  else
    Normal (assign_columns columnNames columnValues row).

(** [composeRows(columnNames, columnValuesList)]: only
    [columnValuesList[0]] is measured; the loop then builds one row per
    entry and pushes it on [results]. *)
Definition composeRows (columnNames : SQLiteColumnNames)
    (columnValuesList : list SQLiteColumnValues) : Completion (list Row) :=
  match columnValuesList with
  | [] => Normal []
  | first :: _ =>
      if bool_decide (length columnNames ≠ length first) then
        Throw (count_mismatch (length columnNames) (length first))
      else
        Normal (foldl (λ (results : list Row) columnValues,
                         (results ++ [assign_columns columnNames columnValues ∅])%list)
                      [] columnValuesList)
  end.

(** ** NativeStatement.ts: the native statement handle *)

Module Native.

(** What a get-one call hands back:
    [SQLiteColumnValues | null | undefined]. *)
Inductive Fetched : Type :=
| Values (columnValues : SQLiteColumnValues)
| Null
| Undefined.

(** [result != null]. *)
Definition not_null (result : Fetched) : bool :=
  match result with
  | Values _ => true
  | Null | Undefined => false
  end.

(** The methods of [NativeStatement] the row-producing operations call.
    The class is only declared in TypeScript; its behaviour is a
    parameter: each method is a function of the handle's state [N] that
    completes with a value or throws, and leaves a new state.  [Database]
    is [SQLiteAnyDatabase]. *)
Record NativeStatement (Database N : Type) : Type := {
  arrayGetAsync : Database → JsValue → N → Completion Fetched * N;
  objectGetAsync : Database → JsValue → N → Completion Fetched * N;
  arrayGetAllAsync :
    Database → JsValue → N → Completion (list SQLiteColumnValues) * N;
  objectGetAllAsync :
    Database → JsValue → N → Completion (list SQLiteColumnValues) * N;
  getColumnNamesAsync : N → Completion SQLiteColumnNames * N;
  arrayGetSync : Database → JsValue → N → Completion Fetched * N;
  objectGetSync : Database → JsValue → N → Completion Fetched * N;
  arrayGetAllSync :
    Database → JsValue → N → Completion (list SQLiteColumnValues) * N;
  objectGetAllSync :
    Database → JsValue → N → Completion (list SQLiteColumnValues) * N;
  getColumnNamesSync : N → Completion SQLiteColumnNames * N
}.

Arguments arrayGetAsync {Database N} _ _ _ _.
Arguments objectGetAsync {Database N} _ _ _ _.
Arguments arrayGetAllAsync {Database N} _ _ _ _.
Arguments objectGetAllAsync {Database N} _ _ _ _.
Arguments getColumnNamesAsync {Database N} _ _.
Arguments arrayGetSync {Database N} _ _ _ _.
Arguments objectGetSync {Database N} _ _ _ _.
Arguments arrayGetAllSync {Database N} _ _ _ _.
Arguments objectGetAllSync {Database N} _ _ _ _.
Arguments getColumnNamesSync {Database N} _ _.

(** The name of a native method, for the call log. *)
Inductive Method : Type :=
| ArrayGetAsync | ObjectGetAsync | ArrayGetAllAsync | ObjectGetAllAsync
| GetColumnNamesAsync
| ArrayGetSync | ObjectGetSync | ArrayGetAllSync | ObjectGetAllSync
| GetColumnNamesSync.

(** One round trip to the native layer: the method and the bind
    parameters it was given, if it takes any. *)
Record Call : Type := MkCall { method : Method; bound : option JsValue }.

(** The native handle's state together with the calls made so far. *)
Record World (N : Type) : Type := MkWorld { handle : N; calls : list Call }.

Arguments MkWorld {N} _ _.
Arguments handle {N} _.
Arguments calls {N} _.

Definition is_getColumnNames (c : Call) : bool :=
  match method c with
  | GetColumnNamesAsync | GetColumnNamesSync => true
  | _ => false
  end.

(** How many times the log shows column names being fetched. *)
Definition columnNames_fetches (log : list Call) : nat :=
  length (filter (λ c, is_getColumnNames c = true) log).

End Native.

Export Native.

(** ** SQLiteStatement.ts: the class *)

(** A method of the facade runs against the world and may throw.  [await]
    is sequencing: a suspending method is the same state transformer as
    its blocking twin, over the suspending native methods. *)
Definition Facade (N A : Type) : Type := World N → Completion A * World N.

Definition ret {N A} (a : A) : Facade N A := λ w, (Normal a, w).

Definition bind {N A B} (c : Facade N A) (k : A → Facade N B) : Facade N B :=
  λ w, match c w with
       | (Normal a, w') => k a w'
       | (Throw e, w') => (Throw e, w')
       end.

(** A pure call that may throw, such as [composeRow]. *)
Definition lift {N A} (c : Completion A) : Facade N A := λ w, (c, w).

(** A call of a native method: run it on the handle and log it. *)
Definition invoke {N A} (m : Method) (arg : option JsValue)
    (op : N → Completion A * N) : Facade N A :=
  λ w, let '(r, n) := op (handle w) in
       (r, MkWorld n (calls w ++ [MkCall m arg])).

Declare Scope facade_scope.
Delimit Scope facade_scope with facade.
Notation "x <- c ;; k" := (bind c (λ x, k))
  (at level 100, c at next level, right associativity) : facade_scope.

(** What [next()] of a generator resolves to: [{ value, done: false }] or
    [{ done: true }]. *)
Inductive IteratorResult : Type :=
| Yielded (value : Row)
| Done.

(** Where an [each] generator is suspended.  Before the first [next()] it
    holds the arguments it was called with; at the [yield] it holds the
    locals of the loop ([func] is decided by [shouldPassAsObject]). *)
Inductive EachGenerator : Type :=
| SuspendedStart (args : list JsValue)
| SuspendedYield (shouldPassAsObject : bool) (bindParams : JsValue)
    (columnNames : SQLiteColumnNames)
| Completed.

Module SQLiteStatement.
Section Class.

Context {Database N : Type}.
Variable nativeDatabase : Database.
Variable nativeStatement : NativeStatement Database N.

#[local] Open Scope facade_scope.

Definition getColumnNamesAsync : Facade N SQLiteColumnNames :=
  invoke GetColumnNamesAsync None
         (Native.getColumnNamesAsync nativeStatement).

Definition getColumnNamesSync : Facade N SQLiteColumnNames :=
  invoke GetColumnNamesSync None
         (Native.getColumnNamesSync nativeStatement).

Definition objectGetAsync (bindParams : JsValue) : Facade N Fetched :=
  invoke ObjectGetAsync (Some bindParams)
         (Native.objectGetAsync nativeStatement nativeDatabase bindParams).

Definition arrayGetAsync (bindParams : JsValue) : Facade N Fetched :=
  invoke ArrayGetAsync (Some bindParams)
         (Native.arrayGetAsync nativeStatement nativeDatabase bindParams).

Definition objectGetSync (bindParams : JsValue) : Facade N Fetched :=
  invoke ObjectGetSync (Some bindParams)
         (Native.objectGetSync nativeStatement nativeDatabase bindParams).

Definition arrayGetSync (bindParams : JsValue) : Facade N Fetched :=
  invoke ArrayGetSync (Some bindParams)
         (Native.arrayGetSync nativeStatement nativeDatabase bindParams).

Definition objectGetAllAsync (bindParams : JsValue)
    : Facade N (list SQLiteColumnValues) :=
  invoke ObjectGetAllAsync (Some bindParams)
         (Native.objectGetAllAsync nativeStatement nativeDatabase bindParams).

Definition arrayGetAllAsync (bindParams : JsValue)
    : Facade N (list SQLiteColumnValues) :=
  invoke ArrayGetAllAsync (Some bindParams)
         (Native.arrayGetAllAsync nativeStatement nativeDatabase bindParams).

Definition objectGetAllSync (bindParams : JsValue)
    : Facade N (list SQLiteColumnValues) :=
  invoke ObjectGetAllSync (Some bindParams)
         (Native.objectGetAllSync nativeStatement nativeDatabase bindParams).

Definition arrayGetAllSync (bindParams : JsValue)
    : Facade N (list SQLiteColumnValues) :=
  invoke ArrayGetAllSync (Some bindParams)
         (Native.arrayGetAllSync nativeStatement nativeDatabase bindParams).

(** [columnValues != null ? composeRow(columnNames, columnValues) : null] *)
Definition row_or_null (columnNames : SQLiteColumnNames)
    (columnValues : Fetched) : Facade N JsValue :=
  match columnValues with
  | Values columnValues =>
      row <- lift (composeRow columnNames columnValues) ;;
      ret (JsObject row)
  | Null | Undefined => ret JsNull
  end.

(** [getAsync(...params)] *)
Definition getAsync (args : list JsValue) : Facade N JsValue :=
  let bindParams := params (normalizeParams args) in
  let shouldPassAsObject := shouldPassAsObject (normalizeParams args) in
  columnNames <- getColumnNamesAsync ;;
  columnValues <- (if shouldPassAsObject then objectGetAsync bindParams
                   else arrayGetAsync bindParams) ;;
  row_or_null columnNames columnValues.

(** [getSync(...params)] *)
Definition getSync (args : list JsValue) : Facade N JsValue :=
  let bindParams := params (normalizeParams args) in
  let shouldPassAsObject := shouldPassAsObject (normalizeParams args) in
  columnNames <- getColumnNamesSync ;;
  columnValues <- (if shouldPassAsObject then objectGetSync bindParams
                   else arrayGetSync bindParams) ;;
  row_or_null columnNames columnValues.

(** [allAsync(...params)] *)
Definition allAsync (args : list JsValue) : Facade N (list Row) :=
  let bindParams := params (normalizeParams args) in
  let shouldPassAsObject := shouldPassAsObject (normalizeParams args) in
  columnNames <- getColumnNamesAsync ;;
  columnValuesList <- (if shouldPassAsObject then objectGetAllAsync bindParams
                       else arrayGetAllAsync bindParams) ;;
  lift (composeRows columnNames columnValuesList).

(** [allSync(...params)] *)
Definition allSync (args : list JsValue) : Facade N (list Row) :=
  let bindParams := params (normalizeParams args) in
  let shouldPassAsObject := shouldPassAsObject (normalizeParams args) in
  columnNames <- getColumnNamesSync ;;
  columnValuesList <- (if shouldPassAsObject then objectGetAllSync bindParams
                       else arrayGetAllSync bindParams) ;;
  lift (composeRows columnNames columnValuesList).

(** The generators.  A step of a generator takes where it is suspended
    and the world, and gives what [next()] resolves to (or the exception
    it rejects with), where the generator is left, and the new world.  An
    exception escaping the body completes the generator. *)
Definition Step : Type :=
  EachGenerator → World N → Completion IteratorResult * EachGenerator * World N.

(** One turn of [do { result = func(...); if (result != null) yield
    composeRow(columnNames, result); } while (result != null)], up to the
    [yield] or the end of the loop.  Resuming at the [yield] re-enters here,
    the loop condition being true there. *)
Definition each_turn (func : JsValue → Facade N Fetched)
    (shouldPassAsObject : bool) (bindParams : JsValue)
    (columnNames : SQLiteColumnNames)
    (w : World N) : Completion IteratorResult * EachGenerator * World N :=
  match func bindParams w with
  | (Throw e, w) => (Throw e, Completed, w)
  | (Normal result, w) =>
      match result with
      | Values columnValues =>
          match composeRow columnNames columnValues with
          | Normal row =>
              (Normal (Yielded row),
               SuspendedYield shouldPassAsObject bindParams columnNames, w)
          | Throw e => (Throw e, Completed, w)
          end
      | Null | Undefined => (Normal Done, Completed, w)
      end
  end.

(** [next()] of the generator body shared by [eachAsync] and [eachSync]:
    [getColumnNames] and the two get-one methods are those of the
    variant. *)
Definition each_next (getColumnNames : Facade N SQLiteColumnNames)
    (objectGet arrayGet : JsValue → Facade N Fetched) : Step :=
  λ generator w,
    match generator with
    | SuspendedStart args =>
        let bindParams := params (normalizeParams args) in
        let shouldPassAsObject := shouldPassAsObject (normalizeParams args) in
        let func := if shouldPassAsObject then objectGet else arrayGet in
        match getColumnNames w with
        | (Throw e, w) => (Throw e, Completed, w)
        | (Normal columnNames, w) =>
            each_turn func shouldPassAsObject bindParams columnNames w
        end
    | SuspendedYield shouldPassAsObject bindParams columnNames =>
        let func := if shouldPassAsObject then objectGet else arrayGet in
        each_turn func shouldPassAsObject bindParams columnNames w
    | Completed => (Normal Done, Completed, w)
    end.

(** [eachAsync(...params)] and [eachSync(...params)]: calling the
    generator function runs none of its body. *)
Definition eachAsync (args : list JsValue) : EachGenerator :=
  SuspendedStart args.

Definition eachAsync_next : Step :=
  each_next getColumnNamesAsync objectGetAsync arrayGetAsync.

Definition eachSync (args : list JsValue) : EachGenerator :=
  SuspendedStart args.

Definition eachSync_next : Step :=
  each_next getColumnNamesSync objectGetSync arrayGetSync.

(** [for (const row of generator) rows.push(row)], or its [for await]
    twin: pull until the generator is done or throws.  [fuel] bounds the
    number of pulls; [None] means the bound was reached first. *)
Fixpoint collect (next : Step) (fuel : nat) (generator : EachGenerator)
    (w : World N) (rows : list Row)
    : option (Completion (list Row) * EachGenerator * World N) :=
  match fuel with
  | 0 => None
  | S fuel =>
      match next generator w with
      | (Normal (Yielded row), generator, w) =>
          collect next fuel generator w (rows ++ [row])%list
      | (Normal Done, generator, w) => Some (Normal rows, generator, w)
      | (Throw e, generator, w) => Some (Throw e, generator, w)
      end
  end.

End Class.
End SQLiteStatement.

(** ** A scripted native handle *)

Module Scripted.

(** Modelled from the spec: the native engine's statement handle, an
    external collaborator of which the TypeScript sources hold only the
    declaration.  Following section 6 of the specification, get-one steps
    once and returns one row of raw values or an absent marker, get-all
    returns the entire remaining result set, and get-column-names returns
    the ordered labels.  The handle is a cursor over a given result set;
    the bind parameters and the database are not looked at. *)
Record Cursor : Type := MkCursor {
  labels : SQLiteColumnNames;
  remaining : list SQLiteColumnValues;
  absent : Fetched
}.

Definition step (c : Cursor) : Completion Fetched * Cursor :=
  match remaining c with
  | values :: rest => (Normal (Values values), MkCursor (labels c) rest (absent c))
  | [] => (Normal (absent c), c)
  end.

Definition step_all (c : Cursor)
    : Completion (list SQLiteColumnValues) * Cursor :=
  (Normal (remaining c), MkCursor (labels c) [] (absent c)).

Definition column_names (c : Cursor) : Completion SQLiteColumnNames * Cursor :=
  (Normal (labels c), c).

(** Modelled from the spec: the native methods over the cursor, the same
    in the array-bound and name-bound, blocking and suspending forms. *)
Definition statement : NativeStatement unit Cursor := {|
  Native.arrayGetAsync := λ _ _, step;
  Native.objectGetAsync := λ _ _, step;
  Native.arrayGetAllAsync := λ _ _, step_all;
  Native.objectGetAllAsync := λ _ _, step_all;
  Native.getColumnNamesAsync := column_names;
  Native.arrayGetSync := λ _ _, step;
  Native.objectGetSync := λ _ _, step;
  Native.arrayGetAllSync := λ _ _, step_all;
  Native.objectGetAllSync := λ _ _, step_all;
  Native.getColumnNamesSync := column_names
|}.

(** A fresh world over a cursor: nothing called yet. *)
Definition world (c : Cursor) : World Cursor := MkWorld c [].

End Scripted.

(** ** Vocabulary of the statements *)

(** [row] is the object keyed by [columnNames] over [columnValues]: it
    has no key but the names; every name other than [__proto__] is a key,
    and reads the value at the index where the name occurs last
    ([undefined] if the values stop before it). *)
Definition keyed_by (columnNames : SQLiteColumnNames)
    (columnValues : SQLiteColumnValues) (row : Row) : Prop :=
  (∀ key, is_Some (row !! key) → key ∈ columnNames) ∧
  (∀ key, key ≠ "__proto__" → key ∈ columnNames → is_Some (row !! key)) ∧
  (∀ i name,
      name ≠ "__proto__" →
      columnNames !! i = Some name →
      (∀ j, i < j → columnNames !! j ≠ Some name) →
      row !! name = Some (element columnValues i)).

(** The blocking ([...Sync]) and the suspending ([...Async]) variant of
    an operation. *)
Inductive Variant : Type := Blocking | Suspending.

Section Variants.

Context {Database N : Type}.
Variable nativeDatabase : Database.
Variable nativeStatement : NativeStatement Database N.

(** The native methods a variant of the facade reaches. *)
Definition native_getColumnNames (v : Variant)
    : N → Completion SQLiteColumnNames * N :=
  match v with
  | Blocking => Native.getColumnNamesSync nativeStatement
  | Suspending => Native.getColumnNamesAsync nativeStatement
  end.

Definition native_get (v : Variant) (shouldPassAsObject : bool)
    (bindParams : JsValue) : N → Completion Fetched * N :=
  match v, shouldPassAsObject with
  | Blocking, true => Native.objectGetSync nativeStatement nativeDatabase bindParams
  | Blocking, false => Native.arrayGetSync nativeStatement nativeDatabase bindParams
  | Suspending, true => Native.objectGetAsync nativeStatement nativeDatabase bindParams
  | Suspending, false => Native.arrayGetAsync nativeStatement nativeDatabase bindParams
  end.

Definition getColumnNames_method (v : Variant) : Method :=
  match v with
  | Blocking => GetColumnNamesSync
  | Suspending => GetColumnNamesAsync
  end.

Definition get_method (v : Variant) (shouldPassAsObject : bool) : Method :=
  match v, shouldPassAsObject with
  | Blocking, true => ObjectGetSync
  | Blocking, false => ArrayGetSync
  | Suspending, true => ObjectGetAsync
  | Suspending, false => ArrayGetAsync
  end.

(** The facade's operations by variant. *)
Definition getColumnNames (v : Variant) : Facade N SQLiteColumnNames :=
  match v with
  | Blocking => SQLiteStatement.getColumnNamesSync nativeStatement
  | Suspending => SQLiteStatement.getColumnNamesAsync nativeStatement
  end.

Definition get (v : Variant) (args : list JsValue) : Facade N JsValue :=
  match v with
  | Blocking => SQLiteStatement.getSync nativeDatabase nativeStatement args
  | Suspending => SQLiteStatement.getAsync nativeDatabase nativeStatement args
  end.

Definition all (v : Variant) (args : list JsValue) : Facade N (list Row) :=
  match v with
  | Blocking => SQLiteStatement.allSync nativeDatabase nativeStatement args
  | Suspending => SQLiteStatement.allAsync nativeDatabase nativeStatement args
  end.

Definition each (v : Variant) (args : list JsValue) : EachGenerator :=
  match v with
  | Blocking => SQLiteStatement.eachSync args
  | Suspending => SQLiteStatement.eachAsync args
  end.

Definition each_next_of (v : Variant) : SQLiteStatement.Step :=
  match v with
  | Blocking => SQLiteStatement.eachSync_next nativeDatabase nativeStatement
  | Suspending => SQLiteStatement.eachAsync_next nativeDatabase nativeStatement
  end.

(** From state [n], successive calls of the get-one method [fetch] hand
    back the rows of [rows] in order, each with one value per column name,
    and then an absent marker ([null] or [undefined]), leaving state
    [n']. *)
Inductive result_set (fetch : N → Completion Fetched * N)
    (columnNames : SQLiteColumnNames)
    : N → list SQLiteColumnValues → N → Prop :=
| result_set_end n n' marker :
    fetch n = (Normal marker, n') →
    not_null marker = false →
    result_set fetch columnNames n [] n'
| result_set_row n n' n'' columnValues rows :
    fetch n = (Normal (Values columnValues), n') →
    length columnValues = length columnNames →
    result_set fetch columnNames n' rows n'' →
    result_set fetch columnNames n (columnValues :: rows) n''.

End Variants.

(** ** SQLiteStatement.ts: run, reset and finalize *)

Module NativeRun.

(** [SQLiteRunResult]. *)
Record SQLiteRunResult : Type := {
  lastInsertRowId : float;
  changes : float
}.

(** The methods of [NativeStatement] behind [run], [reset] and
    [finalize].  Like the row-producing ones they are a parameter: a
    function of the handle's state that completes or throws. *)
Record NativeExecution (Database N : Type) : Type := {
  arrayRunAsync : Database → JsValue → N → Completion SQLiteRunResult * N;
  objectRunAsync : Database → JsValue → N → Completion SQLiteRunResult * N;
  resetAsync : Database → N → Completion unit * N;
  finalizeAsync : Database → N → Completion unit * N;
  arrayRunSync : Database → JsValue → N → Completion SQLiteRunResult * N;
  objectRunSync : Database → JsValue → N → Completion SQLiteRunResult * N;
  resetSync : Database → N → Completion unit * N;
  finalizeSync : Database → N → Completion unit * N
}.

Arguments arrayRunAsync {Database N} _ _ _ _.
Arguments objectRunAsync {Database N} _ _ _ _.
Arguments resetAsync {Database N} _ _ _.
Arguments finalizeAsync {Database N} _ _ _.
Arguments arrayRunSync {Database N} _ _ _ _.
Arguments objectRunSync {Database N} _ _ _ _.
Arguments resetSync {Database N} _ _ _.
Arguments finalizeSync {Database N} _ _ _.

End NativeRun.

Export NativeRun.

Module SQLiteStatementRun.
Section Class.

Context {Database N : Type}.
Variable nativeDatabase : Database.
Variable nativeStatement : NativeExecution Database N.

(** [runAsync(...params)] *)
Definition runAsync (args : list JsValue)
    : N → Completion SQLiteRunResult * N :=
  let bindParams := params (normalizeParams args) in
  let shouldPassAsObject := shouldPassAsObject (normalizeParams args) in
  if shouldPassAsObject then
    NativeRun.objectRunAsync nativeStatement nativeDatabase bindParams
  else
    NativeRun.arrayRunAsync nativeStatement nativeDatabase bindParams.

(** [runSync(...params)] *)
Definition runSync (args : list JsValue)
    : N → Completion SQLiteRunResult * N :=
  let bindParams := params (normalizeParams args) in
  let shouldPassAsObject := shouldPassAsObject (normalizeParams args) in
  if shouldPassAsObject then
    NativeRun.objectRunSync nativeStatement nativeDatabase bindParams
  else
    NativeRun.arrayRunSync nativeStatement nativeDatabase bindParams.

(** [resetAsync()], [finalizeAsync()], [resetSync()], [finalizeSync()] *)
Definition resetAsync : N → Completion unit * N :=
  NativeRun.resetAsync nativeStatement nativeDatabase.

Definition finalizeAsync : N → Completion unit * N :=
  NativeRun.finalizeAsync nativeStatement nativeDatabase.

Definition resetSync : N → Completion unit * N :=
  NativeRun.resetSync nativeStatement nativeDatabase.

Definition finalizeSync : N → Completion unit * N :=
  NativeRun.finalizeSync nativeStatement nativeDatabase.

(** [run] and the native run methods by variant. *)
Definition run (v : Variant) (args : list JsValue)
    : N → Completion SQLiteRunResult * N :=
  match v with
  | Blocking => runSync args
  | Suspending => runAsync args
  end.

Definition native_objectRun (v : Variant) (bindParams : JsValue)
    : N → Completion SQLiteRunResult * N :=
  match v with
  | Blocking => NativeRun.objectRunSync nativeStatement nativeDatabase bindParams
  | Suspending => NativeRun.objectRunAsync nativeStatement nativeDatabase bindParams
  end.

Definition native_arrayRun (v : Variant) (bindParams : JsValue)
    : N → Completion SQLiteRunResult * N :=
  match v with
  | Blocking => NativeRun.arrayRunSync nativeStatement nativeDatabase bindParams
  | Suspending => NativeRun.arrayRunAsync nativeStatement nativeDatabase bindParams
  end.

End Class.
End SQLiteStatementRun.

(** ** More vocabulary *)

(** How deep arrays are nested in a value. *)
Fixpoint nesting (v : JsValue) : nat :=
  match v with
  | JsArray elements =>
      S ((fix deepest (l : list JsValue) : nat :=
            match l with
            | [] => 0
            | x :: l => Nat.max (nesting x) (deepest l)
            end) elements)
  | _ => 0
  end.

(** A boolean, a number or a string: what [typeof] does not call an
    object and is not [undefined]. *)
Definition wrappable (v : JsValue) : Prop :=
  match v with
  | JsBoolean _ | JsNumber _ | JsString _ => True
  | _ => False
  end.

Section GetAll.

Context {Database N : Type}.
Variable nativeDatabase : Database.
Variable nativeStatement : NativeStatement Database N.

(** The native get-all method a variant of [all] reaches. *)
Definition native_getAll (v : Variant) (shouldPassAsObject : bool)
    (bindParams : JsValue) : N → Completion (list SQLiteColumnValues) * N :=
  match v, shouldPassAsObject with
  | Blocking, true => Native.objectGetAllSync nativeStatement nativeDatabase bindParams
  | Blocking, false => Native.arrayGetAllSync nativeStatement nativeDatabase bindParams
  | Suspending, true => Native.objectGetAllAsync nativeStatement nativeDatabase bindParams
  | Suspending, false => Native.arrayGetAllAsync nativeStatement nativeDatabase bindParams
  end.

Definition getAll_method (v : Variant) (shouldPassAsObject : bool) : Method :=
  match v, shouldPassAsObject with
  | Blocking, true => ObjectGetAllSync
  | Blocking, false => ArrayGetAllSync
  | Suspending, true => ObjectGetAllAsync
  | Suspending, false => ArrayGetAllAsync
  end.

(** From state [n], successive calls of the get-one method [fetch] hand
    back the rows of [rows] in order, whatever their lengths, leaving
    state [n']. *)
Inductive stepped (fetch : N → Completion Fetched * N)
    : N → list SQLiteColumnValues → N → Prop :=
| stepped_nil n : stepped fetch n [] n
| stepped_cons n n' n'' columnValues rows :
    fetch n = (Normal (Values columnValues), n') →
    stepped fetch n' rows n'' →
    stepped fetch n (columnValues :: rows) n''.

(** [const rows = []; for (const row of generator) rows.push(row)] seen
    from outside the loop: the rows pushed, and how the loop ended.
    [fuel] bounds the number of pulls. *)
Fixpoint drain (next : SQLiteStatement.Step) (fuel : nat)
    (generator : EachGenerator) (w : World N) (rows : list Row)
    : option (list Row * Completion unit * EachGenerator * World N) :=
  match fuel with
  | 0 => None
  | S fuel =>
      match next generator w with
      | (Normal (Yielded row), generator, w) =>
          drain next fuel generator w (rows ++ [row])%list
      | (Normal Done, generator, w) => Some (rows, Normal (), generator, w)
      | (Throw e, generator, w) => Some (rows, Throw e, generator, w)
      end
  end.

(** The generators an [each] iteration over the arguments [args] goes
    through: the one the call returns, and the one each [next()] leaves,
    in whatever world the [next()] is made. *)
Inductive pulled (v : Variant) (args : list JsValue) : EachGenerator → Prop :=
| pulled_start : pulled v args (each v args)
| pulled_next generator w outcome generator' w' :
    pulled v args generator →
    each_next_of nativeDatabase nativeStatement v generator w =
      (outcome, generator', w') →
    pulled v args generator'.

End GetAll.

(** ** A failing native handle *)

Module Faulty.

(** Modelled from the spec: a native statement handle whose engine
    reports an error (section 7, native engine error).  The state says
    which calls fail: the column-name fetch, or the fetches of rows; a
    call that does not fail returns one column name, or no row. *)
Record Fault : Type := MkFault {
  names_fail : bool;
  rows_fail : bool
}.

Definition engine_error : JsError := Error "database is locked".

Definition column_names (f : Fault) : Completion SQLiteColumnNames * Fault :=
  (if names_fail f then Throw engine_error else Normal ["a"], f).

Definition step (f : Fault) : Completion Fetched * Fault :=
  (if rows_fail f then Throw engine_error else Normal Null, f).

Definition step_all (f : Fault)
    : Completion (list SQLiteColumnValues) * Fault :=
  (if rows_fail f then Throw engine_error else Normal [], f).

(** Modelled from the spec: the native methods over the fault state. *)
Definition statement : NativeStatement unit Fault := {|
  Native.arrayGetAsync := λ _ _, step;
  Native.objectGetAsync := λ _ _, step;
  Native.arrayGetAllAsync := λ _ _, step_all;
  Native.objectGetAllAsync := λ _ _, step_all;
  Native.getColumnNamesAsync := column_names;
  Native.arrayGetSync := λ _ _, step;
  Native.objectGetSync := λ _ _, step;
  Native.arrayGetAllSync := λ _ _, step_all;
  Native.objectGetAllSync := λ _ _, step_all;
  Native.getColumnNamesSync := column_names
|}.

End Faulty.

(** * Properties *)

(** ** The parameter normalizer *)

Module NormalizerProps.

Example normalizeParams_5 :
  normalizeParams [JsNumber 5] =
  {| params := JsArray [JsNumber 5]; shouldPassAsObject := false |}.
Proof. reflexivity. Qed.

Example normalizeParams_array :
  normalizeParams [JsArray [JsString "test1"; JsNumber 789]] =
  {| params := JsArray [JsString "test1"; JsNumber 789];
     shouldPassAsObject := false |}.
Proof. reflexivity. Qed.

Example normalizeParams_object :
  normalizeParams [JsObject {["$value" := JsString "test1"]}] =
  {| params := JsObject {["$value" := JsString "test1"]};
     shouldPassAsObject := true |}.
Proof. reflexivity. Qed.

(** The normalized value is always an array or an object. *)
Lemma normalizeParams_composite args :
  composite (params (normalizeParams args)).
Proof.
  unfold normalizeParams.
  destruct (bool_decide (1 < length args)); [exact I |].
  destruct (element args 0); exact I.
Qed.

(** A single array or object is handed on as it is. *)
Lemma normalizeParams_pass_through v :
  composite v →
  normalizeParams [v] =
  {| params := v; shouldPassAsObject := negb (isArray v) |}.
Proof. destruct v; simpl; intros H; try contradiction; reflexivity. Qed.

(** C2, as stated, fails at [null]: [null] is a bind value, and
    [normalizeParams(null)] is the empty sequence, not [[null]]. *)
Lemma normalizeParams_null_counterexample :
  SQLiteBindValue JsNull ∧
  normalizeParams [JsNull] =
    {| params := JsArray []; shouldPassAsObject := false |} ∧
  normalizeParams [JsNull] ≠
    {| params := JsArray [JsNull]; shouldPassAsObject := false |}.
Proof. split; [exact I | split; [reflexivity | discriminate]]. Qed.

(** C2, amended: a single text, number or boolean argument [v] is
    wrapped into the one-element sequence [[v]] with the named-form flag
    false; a single [null] argument gives the empty sequence with the flag
    false. *)
Theorem normalizeParams_scalar v :
  SQLiteBindValue v →
  (v ≠ JsNull →
   normalizeParams [v] =
   {| params := JsArray [v]; shouldPassAsObject := false |}) ∧
  (v = JsNull →
   normalizeParams [v] =
   {| params := JsArray []; shouldPassAsObject := false |}).
Proof.
  destruct v; simpl; intros Hv; try contradiction;
    (split; [intros Hne | intros Heq]); try discriminate; try reflexivity.
  by destruct Hne.
Qed.

Lemma normalizeParams_scalar_witness :
  SQLiteBindValue (JsNumber 5) ∧
  normalizeParams [JsNumber 5] =
  {| params := JsArray [JsNumber 5]; shouldPassAsObject := false |}.
Proof.
  split; [exact I|].
  destruct (normalizeParams_scalar (JsNumber 5) I) as [Hwrap _].
  apply Hwrap. discriminate.
Defined.

(** C6: the rules in order.  More than one argument gives the argument
    list itself, flag false; no argument gives the empty sequence, flag
    false; a single argument that is [undefined] or [null] counts as
    absent and gives the empty sequence, one that is a boolean, a number
    or a string is wrapped in a one-element sequence, and an array or an
    object is handed on as it is; and the flag is true exactly when the
    normalized value is an object that is not an array, false exactly
    when it is an array. *)
Theorem normalizeParams_rules :
  (∀ v1 v2 rest,
      normalizeParams (v1 :: v2 :: rest) =
      {| params := JsArray (v1 :: v2 :: rest); shouldPassAsObject := false |}) ∧
  normalizeParams [] =
    {| params := JsArray []; shouldPassAsObject := false |} ∧
  (∀ v,
      normalizeParams [v] =
      match v with
      | JsUndefined | JsNull =>
          {| params := JsArray []; shouldPassAsObject := false |}
      | JsBoolean _ | JsNumber _ | JsString _ =>
          {| params := JsArray [v]; shouldPassAsObject := false |}
      | JsArray _ => {| params := v; shouldPassAsObject := false |}
      | JsObject _ => {| params := v; shouldPassAsObject := true |}
      end) ∧
  (∀ args,
      (shouldPassAsObject (normalizeParams args) = true ↔
       mapping (params (normalizeParams args))) ∧
      (shouldPassAsObject (normalizeParams args) = false ↔
       ∃ elements, params (normalizeParams args) = JsArray elements)).
Proof.
  split; [|split; [|split]].
  - intros v1 v2 rest. unfold normalizeParams.
    replace (bool_decide (1 < length (v1 :: v2 :: rest))) with true
      by (symmetry; apply bool_decide_eq_true_2; simpl; lia).
    reflexivity.
  - reflexivity.
  - intros v. by destruct v.
  - intros args. pose proof (normalizeParams_composite args) as Hc.
    assert (shouldPassAsObject (normalizeParams args) =
            negb (isArray (params (normalizeParams args)))) as ->
      by reflexivity.
    destruct (params (normalizeParams args)); simpl in *;
      try contradiction; naive_solver.
Qed.

(** C8: equal argument lists give equal normalized values and equal
    flags; the function returns for every argument list, its value being
    an array or an object; and a single array or object argument, whatever
    it contains, comes back unchanged. *)
Theorem normalizeParams_deterministic args1 args2 :
  args1 = args2 →
  params (normalizeParams args1) = params (normalizeParams args2) ∧
  shouldPassAsObject (normalizeParams args1) =
    shouldPassAsObject (normalizeParams args2) ∧
  (∃ bindParams flag,
      normalizeParams args1 =
        {| params := bindParams; shouldPassAsObject := flag |} ∧
      composite bindParams) ∧
  (∀ v, args1 = [v] → composite v → params (normalizeParams args1) = v).
Proof.
  intros ->. split; [reflexivity | split; [reflexivity | split]].
  - exists (params (normalizeParams args2)),
           (shouldPassAsObject (normalizeParams args2)).
    split; [reflexivity | apply normalizeParams_composite].
  - intros v -> Hv. rewrite normalizeParams_pass_through by assumption.
    reflexivity.
Qed.

Lemma normalizeParams_deterministic_witness :
  let nested := JsObject {["$a" := JsObject {["b" := JsArray [JsNull]]}]} in
  params (normalizeParams [nested]) = nested ∧
  shouldPassAsObject (normalizeParams [nested]) = true.
Proof.
  intros nested.
  destruct (normalizeParams_deterministic [nested] [nested] eq_refl)
    as (_ & _ & _ & Hpass).
  split; [exact (Hpass nested eq_refl I) | reflexivity].
Defined.

End NormalizerProps.

(** ** The row composer *)

Module ComposerProps.

(** The loop that pushes one composed row per entry is a [map]. *)
Lemma push_loop_map {A B} (f : A → B) (l : list A) (acc : list B) :
  foldl (λ (results : list B) a, (results ++ [f a])%list) acc l =
  (acc ++ map f l)%list.
Proof.
  revert acc. induction l as [|a l IH]; intros acc; simpl.
  - by rewrite app_nil_r.
  - rewrite IH, <- app_assoc. reflexivity.
Qed.

(** An assignment reads, at every key but [__proto__], as the insertion
    of the property. *)
Lemma assign_own_lookup o k v key :
  key ≠ "__proto__" →
  own (assign o k v) !! key = (<[k := v]> (own o)) !! key.
Proof.
  intros Hkey. unfold assign.
  destruct (bool_decide (k = "__proto__")) eqn:Hk; cbn [andb own];
    [|reflexivity].
  apply bool_decide_eq_true_1 in Hk as ->.
  destruct (bool_decide (own o !! "__proto__" = None)
            && reaches_proto_accessor (prototype o)); cbn [own];
    [|reflexivity].
  rewrite lookup_insert_ne by done.
  unfold set_prototype. by destruct v.
Qed.

(** An assignment gives the object no key but the one assigned. *)
Lemma assign_own_dom o k v :
  dom (own (assign o k v)) ⊆ {[k]} ∪ dom (own o).
Proof.
  unfold assign.
  destruct (bool_decide (k = "__proto__")
            && bool_decide (own o !! k = None)
            && reaches_proto_accessor (prototype o)); cbn [own].
  - unfold set_prototype. destruct v; cbn [own]; set_solver.
  - rewrite dom_insert_L. set_solver.
Qed.

(** Under any name but [__proto__] an assignment is the insertion. *)
Lemma assign_ordinary o k v :
  k ≠ "__proto__" →
  assign o k v = MkRowObject (prototype o) (<[k := v]> (own o)).
Proof.
  intros Hk. unfold assign. by rewrite bool_decide_eq_false_2.
Qed.

Section AssignLoop.

Variable columnNames : SQLiteColumnNames.
Variable columnValues : SQLiteColumnValues.
Variable row : Row.

(** The object after the first [n] turns of the assignment loop, and
    the map that inserting the same properties in turn gives. *)
Local Abbreviation after n :=
  (foldl (assign_column columnNames columnValues)
         (MkRowObject ObjectPrototype row) (seq 0 n)).
Local Abbreviation inserted n :=
  (foldl (λ (r : Row) i,
            <[default "undefined" (columnNames !! i) :=
                element columnValues i]> r)
         row (seq 0 n)).

Lemma assign_turn (n : nat) name :
  columnNames !! n = Some name →
  after (S n) = assign (after n) name (element columnValues n).
Proof.
  intros Hn. rewrite seq_S, foldl_app. simpl.
  unfold assign_column at 1. by rewrite Hn.
Qed.

Lemma inserted_turn (n : nat) name :
  columnNames !! n = Some name →
  inserted (S n) = <[name := element columnValues n]> (inserted n).
Proof. intros Hn. rewrite seq_S, foldl_app. simpl. by rewrite Hn. Qed.

(** A key none of the first [n] names spells keeps what [row] had. *)
Lemma inserted_miss (n : nat) key :
  n ≤ length columnNames →
  (∀ i, i < n → columnNames !! i ≠ Some key) →
  inserted n !! key = row !! key.
Proof.
  induction n as [|n IH]; intros Hn Hmiss; [reflexivity|].
  destruct (lookup_lt_is_Some_2 columnNames n) as [name Hname]; [lia|].
  rewrite (inserted_turn n name Hname).
  rewrite lookup_insert_ne.
  - apply IH; [lia|]. intros i Hi. apply Hmiss. lia.
  - intros ->. apply (Hmiss n); [lia | assumption].
Qed.

(** A name reads the value at the last index, below [n], that spells
    it. *)
Lemma inserted_last (n i : nat) name :
  n ≤ length columnNames →
  i < n →
  columnNames !! i = Some name →
  (∀ j, i < j → j < n → columnNames !! j ≠ Some name) →
  inserted n !! name = Some (element columnValues i).
Proof.
  induction n as [|n IH]; intros Hn Hi Hname Hlast; [lia|].
  destruct (lookup_lt_is_Some_2 columnNames n) as [name' Hname']; [lia|].
  rewrite (inserted_turn n name' Hname').
  destruct (decide (i = n)) as [->|Hne].
  - assert (name' = name) as -> by congruence.
    apply lookup_insert_eq.
  - rewrite lookup_insert_ne.
    + apply IH; [lia | lia | assumption |]. intros j Hij Hjn.
      apply Hlast; lia.
    + intros ->. apply (Hlast n); [lia | lia | assumption].
Qed.

Lemma inserted_dom (n : nat) :
  n ≤ length columnNames →
  dom (inserted n) = dom row ∪ list_to_set (take n columnNames).
Proof.
  induction n as [|n IH]; intros Hn.
  - simpl. set_solver.
  - destruct (lookup_lt_is_Some_2 columnNames n) as [name Hname]; [lia|].
    rewrite (inserted_turn n name Hname), dom_insert_L, IH by lia.
    rewrite (take_S_r _ _ _ Hname), list_to_set_app_L. set_solver.
Qed.

(** At every key but [__proto__] the loop reads as the insertions do. *)
Lemma after_lookup (n : nat) key :
  n ≤ length columnNames →
  key ≠ "__proto__" →
  own (after n) !! key = inserted n !! key.
Proof.
  intros Hn Hkey. induction n as [|n IH]; [reflexivity|].
  destruct (lookup_lt_is_Some_2 columnNames n) as [name Hname]; [lia|].
  rewrite (assign_turn n name Hname), (inserted_turn n name Hname).
  rewrite assign_own_lookup by done.
  destruct (decide (name = key)) as [->|Hne].
  - by rewrite !lookup_insert_eq.
  - rewrite !lookup_insert_ne by done. apply IH. lia.
Qed.

(** The loop makes no key the insertions do not make. *)
Lemma after_dom (n : nat) :
  n ≤ length columnNames →
  dom (own (after n)) ⊆ dom (inserted n).
Proof.
  induction n as [|n IH]; intros Hn; [reflexivity|].
  destruct (lookup_lt_is_Some_2 columnNames n) as [name Hname]; [lia|].
  rewrite (assign_turn n name Hname), (inserted_turn n name Hname).
  rewrite dom_insert_L.
  pose proof (assign_own_dom (after n) name (element columnValues n)).
  specialize (IH ltac:(lia)). set_solver.
Qed.

(** Without a column named [__proto__] the loop is the insertions. *)
Lemma after_inserted (n : nat) :
  n ≤ length columnNames →
  "__proto__" ∉ columnNames →
  after n = MkRowObject ObjectPrototype (inserted n).
Proof.
  intros Hn Hproto. induction n as [|n IH]; [reflexivity|].
  destruct (lookup_lt_is_Some_2 columnNames n) as [name Hname]; [lia|].
  rewrite (assign_turn n name Hname), (inserted_turn n name Hname).
  rewrite IH by lia. apply assign_ordinary.
  intros ->. apply Hproto. by eapply list_elem_of_lookup_2.
Qed.

End AssignLoop.

(** The whole loop, begun on the empty object, builds the object keyed by
    the names over the values. *)
Lemma assign_columns_keyed_by columnNames columnValues :
  keyed_by columnNames columnValues
           (assign_columns columnNames columnValues ∅).
Proof.
  unfold assign_columns. split; [|split].
  - intros key Hkey. apply elem_of_dom in Hkey.
    apply (after_dom columnNames columnValues ∅) in Hkey; [|lia].
    rewrite inserted_dom in Hkey by lia.
    rewrite firstn_all, dom_empty_L in Hkey. set_solver.
  - intros key Hproto Hkey. rewrite after_lookup by (lia || done).
    apply elem_of_dom. rewrite inserted_dom by lia.
    rewrite firstn_all, dom_empty_L. set_solver.
  - intros i name Hproto Hname Hlast. rewrite after_lookup by (lia || done).
    apply inserted_last with (name := name); try assumption; [lia | |].
    + by apply lookup_lt_Some in Hname.
    + intros j Hij _. by apply Hlast.
Qed.

(** The row has no more keys than there are distinct names, and as many
    when no column is named [__proto__]. *)
Lemma assign_columns_size_le columnNames columnValues :
  size (assign_columns columnNames columnValues ∅) ≤
  size (list_to_set columnNames : gset string).
Proof.
  rewrite <- size_dom. apply subseteq_size. unfold assign_columns.
  etrans; [apply after_dom; lia|].
  rewrite inserted_dom by lia. rewrite firstn_all, dom_empty_L. set_solver.
Qed.

Lemma assign_columns_size columnNames columnValues :
  "__proto__" ∉ columnNames →
  size (assign_columns columnNames columnValues ∅) =
  size (list_to_set columnNames : gset string).
Proof.
  intros Hproto. rewrite <- size_dom. unfold assign_columns.
  rewrite after_inserted by (lia || done). cbn [own].
  rewrite inserted_dom by lia. rewrite firstn_all, dom_empty_L.
  f_equal. set_solver.
Qed.

(** Distinct keys are no more than names, and fewer when a name
    repeats. *)
Lemma distinct_names_le (names : list string) :
  size (list_to_set names : gset string) ≤ length names.
Proof.
  induction names as [|x names IH].
  - rewrite list_to_set_nil, size_empty. simpl. lia.
  - rewrite list_to_set_cons, size_union_alt, size_singleton. simpl.
    assert (size (list_to_set names ∖ {[x]} : gset string)
            ≤ size (list_to_set names : gset string))
      by (apply subseteq_size; set_solver).
    lia.
Qed.

Lemma repeated_names_lt (names : list string) :
  ¬ NoDup names →
  size (list_to_set names : gset string) < length names.
Proof.
  induction names as [|x names IH]; intros Hdup.
  - destruct Hdup. constructor.
  - rewrite list_to_set_cons. simpl.
    destruct (decide (x ∈ names)) as [Hin|Hnin].
    + assert (({[x]} ∪ list_to_set names : gset string) = list_to_set names)
        as -> by set_solver.
      pose proof (distinct_names_le names). lia.
    + assert (¬ NoDup names) as Hdup'
        by (intros Hnd; apply Hdup; by constructor).
      specialize (IH Hdup').
      rewrite size_union_alt, size_singleton.
      assert (size (list_to_set names ∖ {[x]} : gset string)
              ≤ size (list_to_set names : gset string))
        by (apply subseteq_size; set_solver).
      lia.
Qed.

Lemma composeRow_normal columnNames columnValues :
  length columnNames = length columnValues →
  composeRow columnNames columnValues =
  Normal (assign_columns columnNames columnValues ∅).
Proof.
  intros Hlen. unfold composeRow.
  by rewrite bool_decide_eq_false_2 by (intros Hne; by apply Hne).
Qed.

Lemma composeRow_throw columnNames columnValues :
  length columnNames ≠ length columnValues →
  composeRow columnNames columnValues =
  Throw (count_mismatch (length columnNames) (length columnValues)).
Proof.
  intros Hlen. unfold composeRow. by rewrite bool_decide_eq_true_2.
Qed.

Lemma composeRows_cons columnNames first rest :
  composeRows columnNames (first :: rest) =
  if bool_decide (length columnNames = length first) then
    Normal (map (λ columnValues, assign_columns columnNames columnValues ∅)
                (first :: rest))
  else Throw (count_mismatch (length columnNames) (length first)).
Proof.
  unfold composeRows. case_bool_decide as Hne.
  - by rewrite bool_decide_eq_false_2.
  - rewrite bool_decide_eq_true_2 by (by destruct (decide (length columnNames = length first)); [|contradiction]).
    rewrite (push_loop_map (λ columnValues,
               assign_columns columnNames columnValues ∅)).
    reflexivity.
Qed.

(** With matching lengths the value at an index of the names is there. *)
Lemma element_lookup (columnNames : SQLiteColumnNames)
    (columnValues : SQLiteColumnValues) (i : nat) name :
  length columnNames = length columnValues →
  columnNames !! i = Some name →
  Some (element columnValues i) = columnValues !! i.
Proof.
  intros Hlen Hname. apply lookup_lt_Some in Hname.
  destruct (lookup_lt_is_Some_2 columnValues i) as [v Hv]; [lia|].
  unfold element. by rewrite Hv.
Qed.

Lemma composeRows_keyed_by columnNames (columnValuesList : list SQLiteColumnValues) :
  Forall2 (keyed_by columnNames) columnValuesList
    (map (λ columnValues, assign_columns columnNames columnValues ∅)
         columnValuesList).
Proof.
  induction columnValuesList; constructor;
    [apply assign_columns_keyed_by | assumption].
Qed.

Example composeRows_empty : composeRows ["a"] [] = Normal [].
Proof. reflexivity. Qed.

(** A number assigned under [__proto__] is ignored by the inherited
    setter; [null] assigned there removes the prototype, after which the
    name is an ordinary one. *)
Example composeRow_proto_ignored :
  composeRow ["__proto__"] [JsNumber 1] = Normal ∅.
Proof. reflexivity. Qed.

Example composeRow_proto_after_null :
  composeRow ["__proto__"; "__proto__"] [JsNull; JsNumber 5] =
  Normal {["__proto__" := JsNumber 5]}.
Proof. reflexivity. Qed.

(** C4, as stated, fails for a repeated column name: the lengths match
    and the call succeeds, yet the name at index 0 is keyed to the value
    at index 1.  It fails too for a column named [__proto__], which the
    row does not get as a key. *)
Lemma composeRow_repeated_name_counterexample :
  length ["a"; "a"] = length [JsNumber 1; JsNumber 2] ∧
  composeRow ["a"; "a"] [JsNumber 1; JsNumber 2] =
    Normal {["a" := JsNumber 2]} ∧
  ["a"; "a"] !! 0 = Some "a" ∧
  [JsNumber 1; JsNumber 2] !! 0 = Some (JsNumber 1) ∧
  ({["a" := JsNumber 2]} : Row) !! "a" ≠ Some (JsNumber 1) ∧
  composeRow ["__proto__"; "a"] [JsNumber 1; JsNumber 2] =
    Normal {["a" := JsNumber 2]} ∧
  ({["a" := JsNumber 2]} : Row) !! "__proto__" = None.
Proof.
  repeat split; try reflexivity.
  intros H. apply (f_equal (λ o, match o with
                                 | Some (JsNumber x) => PrimFloat.eqb x 1
                                 | _ => false
                                 end)) in H.
  vm_compute in H. discriminate.
Qed.

(** C4, amended: [composeRow] fails with the length-mismatch error if and
    only if the two lengths differ; on success the row has no key but the
    column names, and every column name other than [__proto__] is a key
    of it, keyed to the value at the index of its last occurrence, so
    that the i-th name is keyed to the i-th value whenever the name does
    not occur again later, and for every i when the names are distinct. *)
Theorem composeRow_spec columnNames columnValues :
  (composeRow columnNames columnValues =
     Throw (count_mismatch (length columnNames) (length columnValues)) ↔
   length columnNames ≠ length columnValues) ∧
  ((∃ row, composeRow columnNames columnValues = Normal row) ↔
   length columnNames = length columnValues) ∧
  (∀ row, composeRow columnNames columnValues = Normal row →
     (∀ key, is_Some (row !! key) → key ∈ columnNames) ∧
     (∀ key, key ≠ "__proto__" → key ∈ columnNames → is_Some (row !! key)) ∧
     (∀ i name,
         name ≠ "__proto__" →
         columnNames !! i = Some name →
         (∀ j, i < j → columnNames !! j ≠ Some name) →
         row !! name = columnValues !! i) ∧
     (NoDup columnNames →
      ∀ i name, name ≠ "__proto__" →
                columnNames !! i = Some name →
                row !! name = columnValues !! i)) ∧
  composeRow ["a"; "b"] [JsNumber 1; JsNumber 2] =
    Normal {["a" := JsNumber 1; "b" := JsNumber 2]}.
Proof.
  destruct (decide (length columnNames = length columnValues)) as [Heq|Hne].
  - rewrite (composeRow_normal _ _ Heq).
    destruct (assign_columns_keyed_by columnNames columnValues)
      as (Hkeys & Hnames & Hlast).
    assert (∀ i name,
               name ≠ "__proto__" →
               columnNames !! i = Some name →
               (∀ j, i < j → columnNames !! j ≠ Some name) →
               assign_columns columnNames columnValues ∅ !! name =
               columnValues !! i) as Hlast'.
    { intros i name Hproto Hname Hlater.
      rewrite (Hlast i name Hproto Hname Hlater).
      by apply element_lookup with (columnNames := columnNames) (name := name). }
    split; [split; [intros [=] | intros Hne; by destruct Hne] |].
    split; [split; [done | intros _; by eexists] |].
    split; [|reflexivity].
    intros row [= <-].
    split; [exact Hkeys | split; [exact Hnames | split; [exact Hlast'|]]].
    intros Hnodup i name Hproto Hname. apply Hlast'; [assumption.. |].
    intros j Hij Hj.
    pose proof (NoDup_lookup _ _ _ _ Hnodup Hname Hj). lia.
  - rewrite (composeRow_throw _ _ Hne).
    split; [split; [done | reflexivity] |].
    split; [split; [intros [row [=]] | intros Heq; by destruct Hne] |].
    split; [intros row [=] | reflexivity].
Qed.



(** C5: [composeRows] of the empty list is the empty sequence, whatever
    the column names; of a list that is not empty it fails exactly when
    the first row's length differs from that of the column names, and
    otherwise returns one row per entry, in order, each built by the same
    assignment loop over the same column names (a row has no key but the
    names, and under every name other than [__proto__] the value at the
    index of its last occurrence) and equal to what [composeRow] returns
    for an entry of matching length. *)
Theorem composeRows_spec columnNames :
  composeRows columnNames [] = Normal [] ∧
  (∀ first rest,
      composeRows columnNames (first :: rest) =
      if bool_decide (length columnNames = length first) then
        Normal (map (λ columnValues, assign_columns columnNames columnValues ∅)
                    (first :: rest))
      else Throw (count_mismatch (length columnNames) (length first))) ∧
  (∀ columnValuesList rows,
      composeRows columnNames columnValuesList = Normal rows →
      length rows = length columnValuesList ∧
      Forall2 (keyed_by columnNames) columnValuesList rows ∧
      Forall2 (λ columnValues row,
                 length columnNames = length columnValues →
                 composeRow columnNames columnValues = Normal row)
              columnValuesList rows) ∧
  composeRows ["a"; "b"] [[JsNumber 1; JsNumber 2]; [JsNumber 3; JsNumber 4]] =
    Normal [ {["a" := JsNumber 1; "b" := JsNumber 2]};
             {["a" := JsNumber 3; "b" := JsNumber 4]} ].
Proof.
  split; [reflexivity | split; [apply composeRows_cons | split; [|reflexivity]]].
  intros columnValuesList rows Hrows.
  assert (rows = map (λ columnValues,
                        assign_columns columnNames columnValues ∅)
                     columnValuesList) as ->.
  { destruct columnValuesList as [|first rest]; [by inversion Hrows|].
    rewrite composeRows_cons in Hrows. case_bool_decide; congruence. }
  split; [by rewrite length_map | split; [apply composeRows_keyed_by|]].
  clear Hrows. induction columnValuesList; constructor; [|assumption].
  apply composeRow_normal.
Qed.

(** C10, as stated, fails when the repeated column name is
    [__proto__]: the lengths match and the call succeeds, but the row has
    no such key, so the name is not keyed to the value at its last
    occurrence. *)
Lemma repeated_proto_counterexample :
  ¬ NoDup ["__proto__"; "__proto__"] ∧
  length ["__proto__"; "__proto__"] = length [JsNumber 1; JsNumber 2] ∧
  composeRow ["__proto__"; "__proto__"] [JsNumber 1; JsNumber 2] = Normal ∅ ∧
  composeRows ["__proto__"; "__proto__"] [[JsNumber 1; JsNumber 2]] =
    Normal [∅] ∧
  ["__proto__"; "__proto__"] !! 1 = Some "__proto__" ∧
  [JsNumber 1; JsNumber 2] !! 1 = Some (JsNumber 2) ∧
  (∅ : Row) !! "__proto__" = None.
Proof.
  split; [|repeat split; reflexivity].
  intros Hnd. apply NoDup_cons in Hnd as [Hnin _]. apply Hnin. left.
Qed.

(** C10, amended: when a column name repeats and the lengths match,
    [composeRow] and [composeRows] return normally; the row has fewer
    keys than there are column names, and every name other than
    [__proto__] is keyed to the value at the index of its last
    occurrence, the values at its earlier occurrences being lost. *)
Theorem repeated_name_last_wins columnNames :
  ¬ NoDup columnNames →
  (∀ columnValues,
      length columnNames = length columnValues →
      ∃ row, composeRow columnNames columnValues = Normal row ∧
             size row < length columnNames ∧
             ∀ i name,
               name ≠ "__proto__" →
               columnNames !! i = Some name →
               (∀ j, i < j → columnNames !! j ≠ Some name) →
               row !! name = columnValues !! i) ∧
  (∀ columnValuesList,
      Forall (λ columnValues, length columnNames = length columnValues)
             columnValuesList →
      ∃ rows, composeRows columnNames columnValuesList = Normal rows ∧
              Forall2 (λ columnValues row,
                         size row < length columnNames ∧
                         ∀ i name,
                           name ≠ "__proto__" →
                           columnNames !! i = Some name →
                           (∀ j, i < j → columnNames !! j ≠ Some name) →
                           row !! name = columnValues !! i)
                      columnValuesList rows).
Proof.
  intros Hdup.
  assert (∀ columnValues,
             length columnNames = length columnValues →
             size (assign_columns columnNames columnValues ∅)
               < length columnNames ∧
             ∀ i name,
               name ≠ "__proto__" →
               columnNames !! i = Some name →
               (∀ j, i < j → columnNames !! j ≠ Some name) →
               assign_columns columnNames columnValues ∅ !! name =
               columnValues !! i) as Hrow.
  { intros columnValues Hlen. split.
    - pose proof (assign_columns_size_le columnNames columnValues).
      pose proof (repeated_names_lt columnNames Hdup). lia.
    - intros i name Hproto Hname Hlater.
      destruct (assign_columns_keyed_by columnNames columnValues)
        as (_ & _ & Hlast).
      rewrite (Hlast i name Hproto Hname Hlater).
      by apply element_lookup with (columnNames := columnNames) (name := name). }
  split.
  - intros columnValues Hlen. eexists.
    split; [by apply composeRow_normal | by apply Hrow].
  - intros columnValuesList Hall.
    destruct columnValuesList as [|first rest].
    + exists []. split; [reflexivity | constructor].
    + eexists. split.
      * rewrite composeRows_cons, bool_decide_eq_true_2; [reflexivity|].
        by inversion Hall.
      * induction Hall as [|columnValues l Hlen Hall IH]; constructor;
          [by apply Hrow | assumption].
Qed.

Lemma repeated_name_last_wins_witness :
  ¬ NoDup ["a"; "a"] ∧
  ∃ row, composeRow ["a"; "a"] [JsNumber 1; JsNumber 2] = Normal row ∧
         size row < 2 ∧ row !! "a" = Some (JsNumber 2).
Proof.
  assert (¬ NoDup ["a"; "a"]) as Hdup.
  { intros Hnd. apply NoDup_cons in Hnd as [Hnin _]. apply Hnin. left. }
  split; [exact Hdup|].
  destruct (repeated_name_last_wins ["a"; "a"] Hdup) as [Hone _].
  destruct (Hone [JsNumber 1; JsNumber 2] eq_refl) as (row & Hrow & Hsize & Hlast).
  exists row. split; [exact Hrow | split; [exact Hsize|]].
  apply (Hlast 1 "a"); [discriminate | reflexivity |].
  intros [|[|j]] Hj; [lia | lia | discriminate].
Defined.

End ComposerProps.

(** ** The statement facade *)

Module FacadeProps.

Import SQLiteStatement.

#[local] Arguments normalizeParams : simpl never.

Lemma fetches_snoc (log : list Call) (c : Call) :
  columnNames_fetches (log ++ [c]) =
  columnNames_fetches log + (if is_getColumnNames c then 1 else 0).
Proof.
  unfold columnNames_fetches. rewrite filter_app, length_app. f_equal.
  rewrite filter_cons, filter_nil.
  destruct (is_getColumnNames c); by case_decide.
Qed.

Section Facade.

Context {Database N : Type}.
Variable nativeDatabase : Database.
Variable nativeStatement : NativeStatement Database N.

Lemma invoke_eq {A} m arg (op : N → Completion A * N) (w : World N) r n :
  op (handle w) = (r, n) →
  invoke m arg op w = (r, MkWorld n (calls w ++ [MkCall m arg])).
Proof. intros H. unfold invoke. by rewrite H. Qed.

Lemma invoke_calls {A} m arg (op : N → Completion A * N) (w : World N) :
  calls (invoke m arg op w).2 = calls w ++ [MkCall m arg].
Proof. unfold invoke. by destruct (op (handle w)). Qed.

(** What the facade's methods come to, by variant. *)
Lemma getColumnNames_invoke v :
  getColumnNames nativeStatement v =
  invoke (getColumnNames_method v) None
         (native_getColumnNames nativeStatement v).
Proof. by destruct v. Qed.

Lemma get_unfold v args :
  get nativeDatabase nativeStatement v args =
  bind (getColumnNames nativeStatement v) (λ columnNames,
    bind (invoke (get_method v (shouldPassAsObject (normalizeParams args)))
                 (Some (params (normalizeParams args)))
                 (native_get nativeDatabase nativeStatement v
                    (shouldPassAsObject (normalizeParams args))
                    (params (normalizeParams args))))
         (row_or_null columnNames)).
Proof.
  destruct v; unfold get, getSync, getAsync;
    generalize (normalizeParams args); intros [bindParams []]; reflexivity.
Qed.

Lemma each_next_unfold v :
  each_next_of nativeDatabase nativeStatement v =
  each_next (getColumnNames nativeStatement v)
    (λ bindParams, invoke (get_method v true) (Some bindParams)
       (native_get nativeDatabase nativeStatement v true bindParams))
    (λ bindParams, invoke (get_method v false) (Some bindParams)
       (native_get nativeDatabase nativeStatement v false bindParams)).
Proof. by destruct v. Qed.

(** A call that only composes rows reaches no native method. *)
Lemma row_or_null_world columnNames fetched (w : World N) :
  (row_or_null columnNames fetched w).2 = w.
Proof.
  destruct fetched as [columnValues| |]; simpl; try reflexivity.
  unfold bind, lift. by destruct (composeRow columnNames columnValues).
Qed.

(** Run the next native call of the goal: name its log equation [Hlog]
    and split on how it completes. *)
Ltac run_invoke Hlog :=
  match goal with
  | |- context [invoke ?m ?a ?op ?w] =>
      pose proof (invoke_calls m a op w) as Hlog;
      destruct (invoke m a op w) as [[?|?] ?];
      cbn [fst snd] in Hlog |- *
  end.

Lemma get_fetches v args (w : World N) :
  columnNames_fetches (calls (get nativeDatabase nativeStatement v args w).2) =
  S (columnNames_fetches (calls w)).
Proof.
  rewrite get_unfold, getColumnNames_invoke.
  generalize (normalizeParams args); intros [bindParams flag].
  cbn [params shouldPassAsObject]. unfold bind at 1.
  run_invoke Hlog.
  - unfold bind. run_invoke Hlog1.
    + rewrite row_or_null_world, Hlog1, Hlog, !fetches_snoc.
      destruct v, flag; cbn; lia.
    + rewrite Hlog1, Hlog, !fetches_snoc. destruct v, flag; cbn; lia.
  - rewrite Hlog, fetches_snoc. destruct v; cbn; lia.
Qed.

Lemma all_fetches v args (w : World N) :
  columnNames_fetches (calls (all nativeDatabase nativeStatement v args w).2) =
  S (columnNames_fetches (calls w)).
Proof.
  destruct v; unfold all, allSync, allAsync;
    generalize (normalizeParams args); intros [bindParams flag];
    cbn [params shouldPassAsObject]; unfold bind at 1;
    unfold getColumnNamesSync, getColumnNamesAsync;
    (run_invoke Hlog; [|rewrite Hlog, fetches_snoc; cbn; lia]);
    unfold bind, lift; destruct flag;
    unfold objectGetAllSync, arrayGetAllSync, objectGetAllAsync,
      arrayGetAllAsync;
    run_invoke Hlog1; rewrite Hlog1, Hlog, !fetches_snoc; cbn; lia.
Qed.

Lemma each_start v args : each v args = SuspendedStart args.
Proof. by destruct v. Qed.

(** The first [next()] fetches the column names and then does what a
    [next()] at the [yield] does. *)
Lemma each_next_start v args n0 n1 log columnNames :
  native_getColumnNames nativeStatement v n0 = (Normal columnNames, n1) →
  each_next_of nativeDatabase nativeStatement v (each v args) (MkWorld n0 log) =
  each_next_of nativeDatabase nativeStatement v
    (SuspendedYield (shouldPassAsObject (normalizeParams args))
                    (params (normalizeParams args)) columnNames)
    (MkWorld n1 (log ++ [MkCall (getColumnNames_method v) None])).
Proof.
  intros Hnames. rewrite each_start, each_next_unfold. cbn [each_next].
  rewrite getColumnNames_invoke.
  by rewrite (invoke_eq _ _ _ (MkWorld n0 log) _ _ Hnames).
Qed.

(** A [next()] at the [yield] makes one get-one call, with the bind
    parameters the generator holds. *)
Lemma each_next_yield_calls v flag bindParams columnNames (w : World N) :
  calls (each_next_of nativeDatabase nativeStatement v
           (SuspendedYield flag bindParams columnNames) w).2 =
  calls w ++ [MkCall (get_method v flag) (Some bindParams)].
Proof.
  rewrite each_next_unfold. cbn [each_next]. unfold each_turn.
  destruct flag; run_invoke Hlog; try assumption;
    match goal with
    | |- context [match ?f with Values _ => _ | Null => _ | Undefined => _ end] =>
        destruct f as [columnValues| |]; try assumption
    end;
    by destruct (composeRow columnNames columnValues).
Qed.

(** Pulling at the [yield] through a result set: the rows come out
    composed and in order, the generator completes, and the log grows by
    one get-one call per row and one for the absent marker. *)
Lemma collect_result_set v flag bindParams columnNames rows n1 n2 :
  result_set (native_get nativeDatabase nativeStatement v flag bindParams)
             columnNames n1 rows n2 →
  ∀ fuel log acc,
    length rows < fuel →
    collect (each_next_of nativeDatabase nativeStatement v) fuel
      (SuspendedYield flag bindParams columnNames) (MkWorld n1 log) acc =
    Some (Normal (acc ++ map (λ columnValues,
                                assign_columns columnNames columnValues ∅) rows),
          Completed,
          MkWorld n2 (log ++ replicate (S (length rows))
                                (MkCall (get_method v flag) (Some bindParams)))).
Proof.
  induction 1 as [n n' marker Hfetch Habsent
                 |n n' n'' columnValues rows Hfetch Hlen Hrest IH];
    intros fuel log acc Hfuel; (destruct fuel as [|fuel]; [simpl in Hfuel; lia|]);
    cbn [collect]; rewrite each_next_unfold; cbn [each_next]; unfold each_turn.
  - assert (invoke (get_method v flag) (Some bindParams)
              (native_get nativeDatabase nativeStatement v flag bindParams)
              (MkWorld n log) =
            (Normal marker,
             MkWorld n' (log ++ [MkCall (get_method v flag) (Some bindParams)])))
      as Hcall by (by apply invoke_eq).
    destruct flag; rewrite Hcall; destruct marker; try discriminate;
      by rewrite app_nil_r.
  - assert (invoke (get_method v flag) (Some bindParams)
              (native_get nativeDatabase nativeStatement v flag bindParams)
              (MkWorld n log) =
            (Normal (Values columnValues),
             MkWorld n' (log ++ [MkCall (get_method v flag) (Some bindParams)])))
      as Hcall by (by apply invoke_eq).
    assert (length rows < fuel) as Hfuel' by (simpl in Hfuel; lia).
    specialize (IH fuel (log ++ [MkCall (get_method v flag) (Some bindParams)])
                  (acc ++ [assign_columns columnNames columnValues ∅])%list
                  Hfuel').
    rewrite each_next_unfold in IH.
    destruct flag; rewrite Hcall;
      rewrite (ComposerProps.composeRow_normal columnNames columnValues)
        by done;
      rewrite IH; cbn [map length replicate];
      by rewrite <- !app_assoc.
Qed.

(** A row yielded at the [yield] is composed from the native row with
    the column names the generator holds, and the generator goes on
    holding them. *)
Lemma each_next_yield_row v flag bindParams columnNames (w : World N)
    row generator w' :
  each_next_of nativeDatabase nativeStatement v
    (SuspendedYield flag bindParams columnNames) w =
    (Normal (Yielded row), generator, w') →
  generator = SuspendedYield flag bindParams columnNames ∧
  ∃ columnValues n',
    native_get nativeDatabase nativeStatement v flag bindParams (handle w) =
      (Normal (Values columnValues), n') ∧
    composeRow columnNames columnValues = Normal row.
Proof.
  rewrite each_next_unfold. cbn [each_next]. unfold each_turn.
  destruct flag; unfold invoke;
    match goal with
    | |- context [native_get ?d ?s ?v ?f ?p ?n] =>
        destruct (native_get d s v f p n) as [[[columnValues| |]|e] n'] eqn:Hget
    end; try discriminate;
    (destruct (composeRow columnNames columnValues) as [row'|e] eqn:Hrow;
     [|discriminate]);
    intros [= <- <- _]; (split; [reflexivity|]);
    by exists columnValues, n'.
Qed.

(** A row yielded by the first [next()] is composed with the column
    names the native layer handed back at that step, and the generator
    then holds those names. *)
Lemma each_next_first_row v args (w : World N) row generator w' :
  each_next_of nativeDatabase nativeStatement v (each v args) w =
    (Normal (Yielded row), generator, w') →
  ∃ columnNames n1 columnValues n2,
    native_getColumnNames nativeStatement v (handle w) =
      (Normal columnNames, n1) ∧
    native_get nativeDatabase nativeStatement v
      (shouldPassAsObject (normalizeParams args))
      (params (normalizeParams args)) n1 = (Normal (Values columnValues), n2) ∧
    composeRow columnNames columnValues = Normal row ∧
    generator = SuspendedYield (shouldPassAsObject (normalizeParams args))
                               (params (normalizeParams args)) columnNames.
Proof.
  rewrite each_start, each_next_unfold. cbn [each_next].
  rewrite getColumnNames_invoke. unfold invoke at 1.
  destruct (native_getColumnNames nativeStatement v (handle w))
    as [[columnNames|e] n1] eqn:Hnames; [|discriminate].
  intros Hstep.
  pose proof (each_next_yield_row v
                (shouldPassAsObject (normalizeParams args))
                (params (normalizeParams args)) columnNames
                (MkWorld n1 (calls w ++ [MkCall (getColumnNames_method v) None]))
                row generator w') as Hyield.
  rewrite each_next_unfold in Hyield. cbn [each_next] in Hyield.
  destruct (Hyield Hstep) as (-> & columnValues & n2 & Hget & Hrow).
  by exists columnNames, n1, columnValues, n2.
Qed.

(** C1, amended: the facade keeps no column names.  Every
    [getColumnNames], [get] and [all] call makes exactly one native
    [getColumnNames] round trip, whatever was called on the statement
    before; an [each] iteration makes exactly one, at its first step, and
    every later step of that iteration reuses the names it fetched: the
    generator holds the names the native layer handed back at the first
    step, and every row it yields, at the first step or later, is
    composed with them. *)
Theorem column_names_fetched_once_per_call (v : Variant)
    (args : list JsValue) (w : World N) :
  columnNames_fetches (calls (getColumnNames nativeStatement v w).2) =
    S (columnNames_fetches (calls w)) ∧
  columnNames_fetches (calls (get nativeDatabase nativeStatement v args w).2) =
    S (columnNames_fetches (calls w)) ∧
  columnNames_fetches (calls (all nativeDatabase nativeStatement v args w).2) =
    S (columnNames_fetches (calls w)) ∧
  columnNames_fetches
    (calls (each_next_of nativeDatabase nativeStatement v (each v args) w).2) =
    S (columnNames_fetches (calls w)) ∧
  (∀ flag bindParams columnNames,
      columnNames_fetches
        (calls (each_next_of nativeDatabase nativeStatement v
                  (SuspendedYield flag bindParams columnNames) w).2) =
      columnNames_fetches (calls w)) ∧
  (each_next_of nativeDatabase nativeStatement v Completed w).2 = w ∧
  (∀ row generator w',
      each_next_of nativeDatabase nativeStatement v (each v args) w =
        (Normal (Yielded row), generator, w') →
      ∃ columnNames n1 columnValues n2,
        native_getColumnNames nativeStatement v (handle w) =
          (Normal columnNames, n1) ∧
        native_get nativeDatabase nativeStatement v
          (shouldPassAsObject (normalizeParams args))
          (params (normalizeParams args)) n1 =
          (Normal (Values columnValues), n2) ∧
        composeRow columnNames columnValues = Normal row ∧
        generator = SuspendedYield (shouldPassAsObject (normalizeParams args))
                                   (params (normalizeParams args))
                                   columnNames) ∧
  (∀ flag bindParams columnNames row generator w',
      each_next_of nativeDatabase nativeStatement v
        (SuspendedYield flag bindParams columnNames) w =
        (Normal (Yielded row), generator, w') →
      generator = SuspendedYield flag bindParams columnNames ∧
      ∃ columnValues n',
        native_get nativeDatabase nativeStatement v flag bindParams
                   (handle w) = (Normal (Values columnValues), n') ∧
        composeRow columnNames columnValues = Normal row).
Proof.
  split; [|split; [apply get_fetches | split; [apply all_fetches |]]].
  { rewrite getColumnNames_invoke, invoke_calls, fetches_snoc.
    destruct v; cbn; lia. }
  split; [|split; [|split; [|split]]].
  - rewrite each_start, each_next_unfold. cbn [each_next].
    rewrite getColumnNames_invoke.
    generalize (normalizeParams args); intros [bindParams flag].
    cbn [params shouldPassAsObject].
    run_invoke Hlog.
    + match goal with
      | |- context [each_turn ?f flag bindParams ?names ?w'] =>
          pose proof (each_next_yield_calls v flag bindParams names w') as Hturn;
          rewrite each_next_unfold in Hturn; cbn [each_next] in Hturn;
          rewrite Hturn
      end.
      rewrite Hlog, !fetches_snoc. destruct v, flag; cbn; lia.
    + rewrite Hlog, fetches_snoc. destruct v; cbn; lia.
  - intros flag bindParams columnNames.
    rewrite each_next_yield_calls, fetches_snoc. destruct v, flag; cbn; lia.
  - by destruct v.
  - apply each_next_first_row.
  - intros flag bindParams columnNames. apply each_next_yield_row.
Qed.

(** A fetched row whose length is not that of the column names ends the
    iteration: the step throws the composer's error. *)
Lemma each_next_mismatch v flag bindParams columnNames columnValues n n' log :
  native_get nativeDatabase nativeStatement v flag bindParams n =
    (Normal (Values columnValues), n') →
  length columnNames ≠ length columnValues →
  each_next_of nativeDatabase nativeStatement v
    (SuspendedYield flag bindParams columnNames) (MkWorld n log) =
  (Throw (count_mismatch (length columnNames) (length columnValues)),
   Completed,
   MkWorld n' (log ++ [MkCall (get_method v flag) (Some bindParams)])).
Proof.
  intros Hfetch Hlen. rewrite each_next_unfold. cbn [each_next].
  unfold each_turn.
  assert (invoke (get_method v flag) (Some bindParams)
            (native_get nativeDatabase nativeStatement v flag bindParams)
            (MkWorld n log) =
          (Normal (Values columnValues),
           MkWorld n' (log ++ [MkCall (get_method v flag) (Some bindParams)])))
    as Hcall by (by apply invoke_eq).
  destruct flag; rewrite Hcall;
    by rewrite (ComposerProps.composeRow_throw _ _ Hlen).
Qed.

(** What [get] resolves to is a row object or [null]. *)
Lemma get_never_undefined v args (w : World N) :
  (get nativeDatabase nativeStatement v args w).1 ≠ Normal JsUndefined.
Proof.
  rewrite get_unfold, getColumnNames_invoke. unfold bind.
  run_invoke Hlog; [|discriminate].
  run_invoke Hlog1; [|discriminate].
  match goal with
  | |- context [row_or_null ?names ?f] => destruct f as [columnValues| |]
  end; cbn; try discriminate.
  unfold lift. destruct (composeRow _ columnValues); discriminate.
Qed.

(** C9: when the native get-one call hands back [null] or [undefined],
    [get] resolves to [null] exactly; it resolves to a row object exactly
    when the native call hands back a row of values that [composeRow]
    accepts, the object being the composed row; and it never resolves to
    [undefined]. *)
Theorem get_absent_is_null (v : Variant) (args : list JsValue)
    (w : World N) columnNames n1 fetched n2 :
  native_getColumnNames nativeStatement v (handle w) =
    (Normal columnNames, n1) →
  native_get nativeDatabase nativeStatement v
    (shouldPassAsObject (normalizeParams args))
    (params (normalizeParams args)) n1 = (Normal fetched, n2) →
  (fetched = Null ∨ fetched = Undefined →
   (get nativeDatabase nativeStatement v args w).1 = Normal JsNull) ∧
  (∀ row,
      (get nativeDatabase nativeStatement v args w).1 = Normal (JsObject row) ↔
      ∃ columnValues,
        fetched = Values columnValues ∧
        composeRow columnNames columnValues = Normal row) ∧
  (get nativeDatabase nativeStatement v args w).1 ≠ Normal JsUndefined.
Proof.
  intros Hnames Hget. split; [|split; [|apply get_never_undefined]].
  - intros Habsent. rewrite get_unfold, getColumnNames_invoke. unfold bind.
    rewrite (invoke_eq _ _ _ w _ _ Hnames).
    rewrite (invoke_eq _ _ _ (MkWorld n1 _) _ _ Hget).
    by destruct Habsent as [-> | ->].
  - intros row. rewrite get_unfold, getColumnNames_invoke. unfold bind.
    rewrite (invoke_eq _ _ _ w _ _ Hnames).
    rewrite (invoke_eq _ _ _ (MkWorld n1 _) _ _ Hget).
    destruct fetched as [columnValues| |]; cbn.
    + unfold lift.
      destruct (composeRow columnNames columnValues) as [row'|e] eqn:Hrow;
        cbn; split.
      * intros [= ->]. by exists columnValues.
      * intros (? & [= <-] & Hrow'). congruence.
      * discriminate.
      * intros (? & [= <-] & Hrow'). congruence.
    + split; [discriminate | by intros (? & ? & _)].
    + split; [discriminate | by intros (? & ? & _)].
Qed.

(** C7: let the statement's column names be [columnNames], and let its
    get-one method, given the normalized bind parameters, hand back the
    [n] rows of a result set in order, each with one value per column
    name, and then an absent marker.  Then pulling the [each] generator
    to its end takes [n + 1] steps: it gives exactly the [n] rows, each
    composed by [composeRow], in fetch order, and completes.  The native
    log shows one [getColumnNames] call followed by [n + 1] get-one calls,
    every one with the same normalized bind parameters, and a completed
    generator stays done without touching the native handle. *)
Theorem each_yields_result_set (v : Variant) (args : list JsValue)
    n0 n1 n2 log columnNames rows fuel :
  native_getColumnNames nativeStatement v n0 = (Normal columnNames, n1) →
  result_set (native_get nativeDatabase nativeStatement v
                (shouldPassAsObject (normalizeParams args))
                (params (normalizeParams args)))
             columnNames n1 rows n2 →
  length rows < fuel →
  ∃ composed,
    collect (each_next_of nativeDatabase nativeStatement v) fuel
            (each v args) (MkWorld n0 log) [] =
      Some (Normal composed, Completed,
            MkWorld n2
              (log ++ MkCall (getColumnNames_method v) None ::
                 replicate (S (length rows))
                   (MkCall (get_method v (shouldPassAsObject
                                            (normalizeParams args)))
                           (Some (params (normalizeParams args)))))) ∧
    Forall2 (λ columnValues row,
               composeRow columnNames columnValues = Normal row)
            rows composed ∧
    ∀ w, each_next_of nativeDatabase nativeStatement v Completed w =
         (Normal Done, Completed, w).
Proof.
  intros Hnames Hrows Hfuel.
  exists (map (λ columnValues, assign_columns columnNames columnValues ∅) rows).
  split; [|split].
  - destruct fuel as [|fuel]; [lia|].
    cbn [collect]. rewrite (each_next_start v args n0 n1 log _ Hnames).
    pose proof (collect_result_set _ _ _ _ _ _ _ Hrows (S fuel)
                  (log ++ [MkCall (getColumnNames_method v) None]) [] Hfuel)
      as Hcollect.
    cbn [collect] in Hcollect. rewrite Hcollect.
    by rewrite <- app_assoc.
  - clear Hfuel Hnames.
    induction Hrows as [|? ? ? columnValues ? ? Hlen ? IH]; cbn [map];
      constructor; [|exact IH].
    by apply ComposerProps.composeRow_normal.
  - intros w'. by destruct v.
Qed.

End Facade.

(** C1, as stated, fails: two [get] calls on one statement make two
    native [getColumnNames] round trips, and so do two [getColumnNames]
    calls. *)
Lemma column_names_refetched_counterexample :
  let statement := Scripted.statement in
  let w0 := Scripted.world
              (Scripted.MkCursor ["a"] [[JsNumber 1]; [JsNumber 2]] Null) in
  let w1 := (getSync () statement [] w0).2 in
  let w2 := (getSync () statement [] w1).2 in
  let w3 := (getColumnNamesAsync statement w2).2 in
  let w4 := (getColumnNamesAsync statement w3).2 in
  calls w2 = [ MkCall GetColumnNamesSync None;
               MkCall ArrayGetSync (Some (JsArray []));
               MkCall GetColumnNamesSync None;
               MkCall ArrayGetSync (Some (JsArray [])) ] ∧
  columnNames_fetches (calls w0) = 0 ∧
  columnNames_fetches (calls w1) = 1 ∧
  columnNames_fetches (calls w2) = 2 ∧
  columnNames_fetches (calls w3) = 3 ∧
  columnNames_fetches (calls w4) = 4.
Proof. repeat split; reflexivity. Qed.

(** A statement with a three-row result set. *)
Lemma each_yields_result_set_witness :
  let cursor :=
    Scripted.MkCursor ["a"; "b"]
      [[JsNumber 1; JsNumber 2]; [JsNumber 3; JsNumber 4];
       [JsNumber 5; JsNumber 6]] Null in
  ∃ composed w,
    collect (each_next_of () Scripted.statement Blocking) 4
            (each Blocking []) (Scripted.world cursor) [] =
      Some (Normal composed, Completed, w)
    ∧ length composed = 3.
Proof.
  intros cursor.
  destruct (each_yields_result_set () Scripted.statement Blocking []
              cursor cursor (Scripted.MkCursor ["a"; "b"] [] Null) []
              ["a"; "b"]
              [[JsNumber 1; JsNumber 2]; [JsNumber 3; JsNumber 4];
               [JsNumber 5; JsNumber 6]] 4)
    as (composed & Hcollect & Hrows & _).
  - reflexivity.
  - repeat (eapply result_set_row; [reflexivity | reflexivity |]).
    eapply result_set_end; reflexivity.
  - simpl. lia.
  - eexists composed, _. split.
    + exact Hcollect.
    + by rewrite <- (Forall2_length _ _ _ Hrows).
Defined.

(** An exhausted statement whose native layer reports [undefined]. *)
Lemma get_absent_is_null_witness :
  let cursor := Scripted.MkCursor ["a"] [] Undefined in
  (get () Scripted.statement Suspending [JsNumber 5]
       (Scripted.world cursor)).1 = Normal JsNull.
Proof.
  intros cursor.
  destruct (get_absent_is_null () Scripted.statement Suspending [JsNumber 5]
              (Scripted.world cursor) ["a"] cursor Undefined cursor
              eq_refl eq_refl) as [Hnull _].
  apply Hnull. by right.
Defined.

End FacadeProps.

(** ** The forms of bind parameters *)

Module NormalizerForms.

Lemma normalizeParams_variadic v1 v2 rest :
  normalizeParams (v1 :: v2 :: rest) =
  {| params := JsArray (v1 :: v2 :: rest); shouldPassAsObject := false |}.
Proof.
  unfold normalizeParams.
  replace (bool_decide (1 < length (v1 :: v2 :: rest))) with true
    by (symmetry; apply bool_decide_eq_true_2; simpl; lia).
  reflexivity.
Qed.

(** An array is nested one deeper than the deepest of its elements, so no
    array is its own only element. *)
Lemma array_not_own_element elements :
  elements ≠ [JsArray elements].
Proof.
  intros Heq. apply (f_equal (λ l, nesting (JsArray l))) in Heq.
  change (nesting (JsArray [JsArray elements]))
    with (S (Nat.max (nesting (JsArray elements)) 0)) in Heq.
  lia.
Qed.

Lemma named_iff args :
  shouldPassAsObject (normalizeParams args) = true ↔
  ∃ properties, args = [JsObject properties].
Proof.
  destruct args as [|v [|v2 rest]].
  - split; [discriminate | by intros [? [=]]].
  - destruct v; cbn; split; try discriminate; try (by intros [? [=]]);
      eauto.
  - rewrite normalizeParams_variadic. cbn.
    split; [discriminate | by intros [? [=]]].
Qed.

(** When the flag is false the normalized value is an array. *)
Lemma positional_is_array args :
  shouldPassAsObject (normalizeParams args) = false →
  ∃ elements, params (normalizeParams args) = JsArray elements.
Proof.
  pose proof (NormalizerProps.normalizeParams_composite args) as Hc.
  assert (shouldPassAsObject (normalizeParams args) =
          negb (isArray (params (normalizeParams args)))) as ->
    by reflexivity.
  destruct (params (normalizeParams args)); simpl in *;
    try contradiction; [eauto | discriminate].
Qed.

Lemma array_form_of_variadic args :
  length args ≠ 1 ∨ (∃ v, args = [v] ∧ wrappable v) →
  normalizeParams args = normalizeParams [JsArray args].
Proof.
  destruct args as [|v [|v2 rest]].
  - reflexivity.
  - intros [Hlen | (? & [= <-] & Hv)]; [simpl in Hlen; lia|].
    by destruct v.
  - intros _. by rewrite normalizeParams_variadic.
Qed.

(** X1: the named form is chosen exactly when the call has one argument
    and that argument is an object that is not an array; the object is
    then handed on unchanged. *)
Theorem named_form_iff_single_object args :
  (shouldPassAsObject (normalizeParams args) = true ↔
   ∃ properties, args = [JsObject properties]) ∧
  (∀ properties,
      args = [JsObject properties] →
      params (normalizeParams args) = JsObject properties).
Proof. split; [apply named_iff | by intros properties ->]. Qed.

(** X2: normalizing is idempotent: the normalized value, passed as the
    single argument of a further call, normalizes to itself with the same
    flag. *)
Theorem normalizeParams_idempotent args :
  normalizeParams [params (normalizeParams args)] = normalizeParams args.
Proof.
  rewrite NormalizerProps.normalizeParams_pass_through
    by apply NormalizerProps.normalizeParams_composite.
  reflexivity.
Qed.

(** X3: the variadic call and the call with the one array of the same
    arguments normalize alike, except when there is exactly one argument
    and it is [null], [undefined], an array or an object: they agree
    exactly when the number of arguments is not one, or the one argument
    is a boolean, a number or a string. *)
Theorem variadic_is_array_form_iff args :
  normalizeParams args = normalizeParams [JsArray args] ↔
  length args ≠ 1 ∨ ∃ v, args = [v] ∧ wrappable v.
Proof.
  split; [|apply array_form_of_variadic].
  destruct args as [|v [|v2 rest]].
  - by left.
  - intros Heq. right. exists v. split; [reflexivity|].
    destruct v; cbn in Heq |- *; try exact I; try discriminate.
    injection Heq as Heq. by apply array_not_own_element in Heq.
  - intros _. left. simpl. lia.
Qed.

End NormalizerForms.

(** ** The keys of a composed row *)

Module ComposerKeys.

(** X4: a composed row never has more keys than there are column names;
    it has as many only if the column names are distinct, and it does
    have as many when they are distinct and none is [__proto__]. *)
Theorem no_column_lost_iff_distinct columnNames columnValues row :
  composeRow columnNames columnValues = Normal row →
  size row ≤ length columnNames ∧
  (size row = length columnNames → NoDup columnNames) ∧
  ("__proto__" ∉ columnNames →
   NoDup columnNames → size row = length columnNames).
Proof.
  unfold composeRow. case_bool_decide; [discriminate|]. intros [= <-].
  pose proof (ComposerProps.assign_columns_size_le columnNames columnValues)
    as Hle.
  pose proof (ComposerProps.distinct_names_le columnNames) as Hnames.
  split; [lia | split].
  - intros Hsize. destruct (decide (NoDup columnNames)) as [|Hdup]; [done|].
    apply ComposerProps.repeated_names_lt in Hdup. lia.
  - intros Hproto Hnodup.
    rewrite ComposerProps.assign_columns_size by done.
    by apply size_list_to_set.
Qed.

Lemma no_column_lost_iff_distinct_witness :
  ∃ row, composeRow ["a"; "b"] [JsNumber 1; JsNumber 2] = Normal row ∧
         size row = 2.
Proof.
  eexists. split; [reflexivity|].
  destruct (no_column_lost_iff_distinct ["a"; "b"] [JsNumber 1; JsNumber 2]
              _ eq_refl) as (_ & _ & Hsize).
  apply Hsize.
  - intros Hin. apply elem_of_cons in Hin as [[=] | Hin].
    by apply list_elem_of_singleton in Hin.
  - apply NoDup_cons. split.
    + by intros [=]%list_elem_of_singleton.
    + apply NoDup_singleton.
Defined.

End ComposerKeys.

(** ** How the operations of a statement relate *)

Module StatementProps.

Import SQLiteStatement.

#[local] Arguments normalizeParams : simpl never.

Section Statement.

Context {Database N : Type}.
Variable nativeDatabase : Database.
Variable nativeStatement : NativeStatement Database N.

Local Abbreviation get' := (get nativeDatabase nativeStatement).
Local Abbreviation all' := (all nativeDatabase nativeStatement).
Local Abbreviation next' := (each_next_of nativeDatabase nativeStatement).
Local Abbreviation native_get' := (native_get nativeDatabase nativeStatement).
Local Abbreviation native_getAll' :=
  (native_getAll nativeDatabase nativeStatement).
Local Abbreviation native_getColumnNames' :=
  (native_getColumnNames nativeStatement).

Ltac run_invoke Hlog :=
  match goal with
  | |- context [invoke ?m ?a ?op ?w] =>
      pose proof (FacadeProps.invoke_calls m a op w) as Hlog;
      destruct (invoke m a op w) as [[?|?] ?];
      cbn [fst snd] in Hlog |- *
  end.

Lemma all_unfold v args :
  all' v args =
  bind (getColumnNames nativeStatement v) (λ columnNames,
    bind (invoke (getAll_method v (shouldPassAsObject (normalizeParams args)))
                 (Some (params (normalizeParams args)))
                 (native_getAll' v
                    (shouldPassAsObject (normalizeParams args))
                    (params (normalizeParams args))))
         (λ columnValuesList, lift (composeRows columnNames columnValuesList))).
Proof.
  destruct v; unfold all, allSync, allAsync;
    generalize (normalizeParams args); intros [bindParams []]; reflexivity.
Qed.

(** The first [next()] of [each], once the column names are fetched. *)
Lemma each_first_turn v args (w : World N) :
  next' v (each v args) w =
  match getColumnNames nativeStatement v w with
  | (Throw e, w1) => (Throw e, Completed, w1)
  | (Normal columnNames, w1) =>
      each_turn
        (λ bindParams,
           invoke (get_method v (shouldPassAsObject (normalizeParams args)))
                  (Some bindParams)
                  (native_get' v (shouldPassAsObject (normalizeParams args))
                               bindParams))
        (shouldPassAsObject (normalizeParams args))
        (params (normalizeParams args)) columnNames w1
  end.
Proof.
  rewrite FacadeProps.each_start, FacadeProps.each_next_unfold.
  cbn [each_next].
  by destruct (shouldPassAsObject (normalizeParams args)).
Qed.

(** X5: [get] is the first step of [each]: on the same statement, in the
    same state and with the same arguments, [get] resolves to the row the
    first [next()] of [each] yields, to [null] where the iteration is
    done at once, and throws what that step throws; both leave the native
    handle and the call log alike. *)
Theorem get_is_first_step_of_each (v : Variant) (args : list JsValue)
    (w : World N) :
  match next' v (each v args) w with
  | (Normal (Yielded row), _, w') => get' v args w = (Normal (JsObject row), w')
  | (Normal Done, _, w') => get' v args w = (Normal JsNull, w')
  | (Throw e, _, w') => get' v args w = (Throw e, w')
  end.
Proof.
  rewrite each_first_turn, FacadeProps.get_unfold. unfold bind.
  destruct (getColumnNames nativeStatement v w) as [[columnNames|e] w1];
    [|reflexivity].
  unfold each_turn.
  destruct (invoke _ _ _ w1) as [[[columnValues| |]|e] w2]; cbn;
    try reflexivity.
  unfold lift. by destruct (composeRow columnNames columnValues).
Qed.

(** Every row of a result set has the length of the column names. *)
Lemma result_set_shape (fetch : N → Completion Fetched * N)
    columnNames n rows n' :
  result_set fetch columnNames n rows n' →
  Forall (λ columnValues, length columnNames = length columnValues) rows.
Proof. induction 1; constructor; [done | assumption]. Qed.

Lemma composeRows_well_shaped columnNames
    (columnValuesList : list SQLiteColumnValues) :
  Forall (λ columnValues, length columnNames = length columnValues)
         columnValuesList →
  composeRows columnNames columnValuesList =
  Normal (map (λ columnValues, assign_columns columnNames columnValues ∅)
              columnValuesList).
Proof.
  intros Hall. destruct columnValuesList as [|first rest]; [reflexivity|].
  rewrite ComposerProps.composeRows_cons, bool_decide_eq_true_2;
    [reflexivity | by inversion Hall].
Qed.

(** What [all] comes to when both native calls return. *)
Lemma all_returns v args n0 n1 n2 log columnNames columnValuesList :
  native_getColumnNames' v n0 = (Normal columnNames, n1) →
  native_getAll' v (shouldPassAsObject (normalizeParams args))
                 (params (normalizeParams args)) n1 =
    (Normal columnValuesList, n2) →
  all' v args (MkWorld n0 log) =
  (composeRows columnNames columnValuesList,
   MkWorld n2 (log ++ [MkCall (getColumnNames_method v) None]
                   ++ [MkCall (getAll_method v (shouldPassAsObject
                                                  (normalizeParams args)))
                              (Some (params (normalizeParams args)))])).
Proof.
  intros Hnames Hall. rewrite all_unfold, FacadeProps.getColumnNames_invoke.
  unfold bind.
  rewrite (FacadeProps.invoke_eq _ _ _ (MkWorld n0 log) _ _ Hnames).
  rewrite (FacadeProps.invoke_eq _ _ _ (MkWorld n1 _) _ _ Hall).
  unfold lift. cbn [calls]. rewrite <- app_assoc.
  by destruct (composeRows columnNames columnValuesList).
Qed.

(** X6: on a result set whose rows all have one value per column name,
    [all] and [each] agree: if the native get-all method hands back the
    rows that the get-one method hands back one by one, [all] returns
    exactly the rows that pulling [each] to its end collects, in the same
    order. *)
Theorem all_agrees_with_each (v : Variant) (args : list JsValue)
    n0 n1 n2 n3 log columnNames rows fuel :
  native_getColumnNames' v n0 = (Normal columnNames, n1) →
  result_set (native_get' v (shouldPassAsObject (normalizeParams args))
                          (params (normalizeParams args)))
             columnNames n1 rows n2 →
  native_getAll' v (shouldPassAsObject (normalizeParams args))
                 (params (normalizeParams args)) n1 = (Normal rows, n3) →
  length rows < fuel →
  ∃ composed w w',
    all' v args (MkWorld n0 log) = (Normal composed, w) ∧
    collect (next' v) fuel (each v args) (MkWorld n0 log) [] =
      Some (Normal composed, Completed, w') ∧
    length composed = length rows.
Proof.
  intros Hnames Hrows Hall Hfuel.
  exists (map (λ columnValues, assign_columns columnNames columnValues ∅) rows).
  do 2 eexists. split; [|split].
  - rewrite (all_returns _ _ _ _ _ _ _ _ Hnames Hall).
    rewrite composeRows_well_shaped by (by eapply result_set_shape).
    reflexivity.
  - destruct fuel as [|fuel]; [lia|]. cbn [collect].
    rewrite (FacadeProps.each_next_start _ _ v args n0 n1 log _ Hnames).
    pose proof (FacadeProps.collect_result_set _ _ _ _ _ _ _ _ _ Hrows (S fuel)
                  (log ++ [MkCall (getColumnNames_method v) None]) [] Hfuel)
      as Hcollect.
    cbn [collect] in Hcollect. rewrite Hcollect. reflexivity.
  - by rewrite length_map.
Qed.

(** A [next()] at the [yield] that fetches a row of the right length
    yields it composed. *)
Lemma each_next_row v flag bindParams columnNames columnValues n n' log :
  native_get' v flag bindParams n = (Normal (Values columnValues), n') →
  length columnNames = length columnValues →
  next' v (SuspendedYield flag bindParams columnNames) (MkWorld n log) =
  (Normal (Yielded (assign_columns columnNames columnValues ∅)),
   SuspendedYield flag bindParams columnNames,
   MkWorld n' (log ++ [MkCall (get_method v flag) (Some bindParams)])).
Proof.
  intros Hfetch Hlen. rewrite FacadeProps.each_next_unfold. cbn [each_next].
  unfold each_turn.
  assert (invoke (get_method v flag) (Some bindParams)
            (native_get' v flag bindParams) (MkWorld n log) =
          (Normal (Values columnValues),
           MkWorld n' (log ++ [MkCall (get_method v flag) (Some bindParams)])))
    as Hcall by (by apply FacadeProps.invoke_eq).
  destruct flag; rewrite Hcall;
    by rewrite (ComposerProps.composeRow_normal _ _ Hlen).
Qed.

(** Pulling through rows of the right length pushes them composed. *)
Lemma drain_stepped v flag bindParams columnNames good n1 nm :
  stepped (native_get' v flag bindParams) n1 good nm →
  Forall (λ columnValues, length columnNames = length columnValues) good →
  ∀ fuel log acc,
    drain (next' v) (length good + fuel)
          (SuspendedYield flag bindParams columnNames) (MkWorld n1 log) acc =
    drain (next' v) fuel
          (SuspendedYield flag bindParams columnNames)
          (MkWorld nm (log ++ replicate (length good)
                             (MkCall (get_method v flag) (Some bindParams))))
          (acc ++ map (λ columnValues,
                         assign_columns columnNames columnValues ∅) good).
Proof.
  induction 1 as [n|n n' n'' columnValues rows Hfetch Hrest IH];
    intros Hshape fuel log acc.
  - cbn. by rewrite !app_nil_r.
  - apply Forall_cons in Hshape as [Hlen Hshape].
    cbn [length Nat.add drain].
    rewrite (each_next_row _ _ _ _ _ _ _ log Hfetch Hlen).
    rewrite (IH Hshape). cbn [map replicate]. by rewrite <- !app_assoc.
Qed.

Lemma drain_start v args n0 n1 log columnNames fuel acc :
  native_getColumnNames' v n0 = (Normal columnNames, n1) →
  drain (next' v) fuel (each v args) (MkWorld n0 log) acc =
  drain (next' v) fuel
        (SuspendedYield (shouldPassAsObject (normalizeParams args))
                        (params (normalizeParams args)) columnNames)
        (MkWorld n1 (log ++ [MkCall (getColumnNames_method v) None])) acc.
Proof.
  intros Hnames. destruct fuel as [|fuel]; [reflexivity|]. cbn [drain].
  by rewrite (FacadeProps.each_next_start _ _ v args n0 n1 log _ Hnames).
Qed.

(** X7: [all] and [each] part ways on a result set with an ill-shaped row
    after the first: where rows of the right length are followed by a row
    of another length, [all] returns normally with one row per entry,
    while pulling [each] pushes the rows before the ill-shaped one and
    then throws the count-mismatch error for it. *)
Theorem all_returns_where_each_throws (v : Variant) (args : list JsValue)
    n0 n1 nm n2 n3 log columnNames good bad rest fuel :
  native_getColumnNames' v n0 = (Normal columnNames, n1) →
  good ≠ [] →
  Forall (λ columnValues, length columnNames = length columnValues) good →
  length columnNames ≠ length bad →
  stepped (native_get' v (shouldPassAsObject (normalizeParams args))
                       (params (normalizeParams args))) n1 good nm →
  native_get' v (shouldPassAsObject (normalizeParams args))
              (params (normalizeParams args)) nm = (Normal (Values bad), n2) →
  native_getAll' v (shouldPassAsObject (normalizeParams args))
                 (params (normalizeParams args)) n1 =
    (Normal (good ++ bad :: rest), n3) →
  length good < fuel →
  (∃ composed w,
      all' v args (MkWorld n0 log) = (Normal composed, w) ∧
      length composed = length good + S (length rest)) ∧
  (∃ w',
      drain (next' v) fuel (each v args) (MkWorld n0 log) [] =
      Some (map (λ columnValues, assign_columns columnNames columnValues ∅)
                good,
            Throw (count_mismatch (length columnNames) (length bad)),
            Completed, w')).
Proof.
  intros Hnames Hgood Hshape Hbad Hstepped Hfetch Hall Hfuel. split.
  - rewrite (all_returns _ _ _ _ _ _ _ _ Hnames Hall).
    destruct good as [|first good]; [done|].
    apply Forall_cons in Hshape as [Hfirst _].
    change ((first :: good) ++ bad :: rest) with (first :: good ++ bad :: rest).
    rewrite ComposerProps.composeRows_cons, bool_decide_eq_true_2 by done.
    do 2 eexists. split; [reflexivity|].
    rewrite length_map. cbn [length]. rewrite length_app. simpl. lia.
  - eexists. rewrite (drain_start _ _ _ _ _ _ _ _ Hnames).
    replace fuel with (length good + S (fuel - S (length good))) by lia.
    rewrite (drain_stepped _ _ _ _ _ _ _ Hstepped Hshape).
    cbn [drain].
    rewrite (FacadeProps.each_next_mismatch _ _ _ _ _ _ _ _ _ _ Hfetch Hbad).
    reflexivity.
Qed.


(** A step leaves the generator at the [yield] when it yields, and
    completed otherwise. *)
Lemma each_next_shape v generator (w : World N) :
  match next' v generator w with
  | (Normal (Yielded _), generator', _) =>
      ∃ flag bindParams columnNames,
        generator' = SuspendedYield flag bindParams columnNames
  | (_, generator', _) => generator' = Completed
  end.
Proof.
  assert (∀ func flag bindParams columnNames (w1 : World N),
             match each_turn func flag bindParams columnNames w1 with
             | (Normal (Yielded _), generator', _) =>
                 ∃ flag bindParams columnNames,
                   generator' = SuspendedYield flag bindParams columnNames
             | (_, generator', _) => generator' = Completed
             end) as Hturn.
  { intros func flag bindParams columnNames w1. unfold each_turn.
    destruct (func bindParams w1) as [[[columnValues| |]|e] w2];
      try reflexivity.
    destruct (composeRow columnNames columnValues); [eauto | reflexivity]. }
  rewrite FacadeProps.each_next_unfold.
  destruct generator as [args|flag bindParams columnNames|]; cbn [each_next].
  - destruct (getColumnNames nativeStatement v w) as [[columnNames|e] w1];
      [apply Hturn | reflexivity].
  - apply Hturn.
  - reflexivity.
Qed.

(** X9: a loop over an [each] generator that ends, by exhaustion or by
    an exception, leaves the generator completed: a further loop over the
    same generator collects nothing and makes no native call. *)
Theorem loop_leaves_generator_completed (v : Variant) (fuel : nat)
    generator (w : World N) acc outcome generator' w' :
  collect (next' v) fuel generator w acc = Some (outcome, generator', w') →
  generator' = Completed ∧
  ∀ fuel', collect (next' v) (S fuel') generator' w' [] =
           Some (Normal [], Completed, w').
Proof.
  intros Hloop.
  assert (generator' = Completed) as ->.
  { revert generator w acc Hloop.
    induction fuel as [|fuel IH]; intros generator w acc Hloop;
      [discriminate|].
    cbn [collect] in Hloop.
    pose proof (each_next_shape v generator w) as Hshape.
    destruct (next' v generator w) as [[[[row|]|e] generator1] w1].
    - by apply IH in Hloop.
    - by injection Hloop as _ <- _.
    - by injection Hloop as _ <- _. }
  split; [reflexivity|]. intros fuel'. cbn [collect]. by destruct v.
Qed.

(** X10: the facade sees its arguments only through the normalizer, so
    the variadic call and the call with the one array of the same
    arguments are the same call: with a number of arguments other than
    one, or with one boolean, number or string, [get], [all] and [each] do
    to the statement exactly what they do given the array. *)
Theorem variadic_call_is_array_call (v : Variant) (args : list JsValue)
    (w : World N) :
  length args ≠ 1 ∨ (∃ x, args = [x] ∧ wrappable x) →
  get' v args w = get' v [JsArray args] w ∧
  all' v args w = all' v [JsArray args] w ∧
  next' v (each v args) w = next' v (each v [JsArray args]) w.
Proof.
  intros Hform. apply NormalizerForms.array_form_of_variadic in Hform.
  rewrite !each_first_turn, !FacadeProps.get_unfold, !all_unfold.
  by rewrite Hform.
Qed.

(** A turn of the loop leaves the generator at the [yield], holding what
    it held, or completed. *)
Lemma each_turn_generator func flag bindParams columnNames (w : World N) :
  (each_turn func flag bindParams columnNames w).1.2 =
    SuspendedYield flag bindParams columnNames ∨
  (each_turn func flag bindParams columnNames w).1.2 = Completed.
Proof.
  unfold each_turn.
  destruct (func bindParams w) as [[[columnValues| |]|e] w1]; cbn;
    try (by right).
  destruct (composeRow columnNames columnValues); cbn; [by left | by right].
Qed.

(** Throughout an iteration the generator holds the bind parameters
    normalized from the arguments of [each]. *)
Lemma pulled_holds_normalized v args generator :
  pulled nativeDatabase nativeStatement v args generator →
  generator = SuspendedStart args ∨
  (∃ columnNames,
      generator = SuspendedYield (shouldPassAsObject (normalizeParams args))
                                 (params (normalizeParams args)) columnNames) ∨
  generator = Completed.
Proof.
  induction 1 as [|generator w outcome generator' w' _ IH Hstep].
  - left. apply FacadeProps.each_start.
  - assert (generator' = (next' v generator w).1.2) as ->
      by (by rewrite Hstep).
    clear Hstep. rewrite FacadeProps.each_next_unfold.
    destruct IH as [-> | [[columnNames ->] | ->]]; cbn [each_next].
    + destruct (getColumnNames nativeStatement v w) as [[columnNames|e] w1];
        [|by right; right].
      destruct (each_turn_generator
                  (if shouldPassAsObject (normalizeParams args)
                   then λ bindParams,
                          invoke (get_method v true) (Some bindParams)
                            (native_get' v true bindParams)
                   else λ bindParams,
                          invoke (get_method v false) (Some bindParams)
                            (native_get' v false bindParams))
                  (shouldPassAsObject (normalizeParams args))
                  (params (normalizeParams args)) columnNames w1)
        as [-> | ->]; [right; left; by eexists | by right; right].
    + destruct (each_turn_generator
                  (if shouldPassAsObject (normalizeParams args)
                   then λ bindParams,
                          invoke (get_method v true) (Some bindParams)
                            (native_get' v true bindParams)
                   else λ bindParams,
                          invoke (get_method v false) (Some bindParams)
                            (native_get' v false bindParams))
                  (shouldPassAsObject (normalizeParams args))
                  (params (normalizeParams args)) columnNames w)
        as [-> | ->]; [right; left; by eexists | by right; right].
    + by right; right.
Qed.

(** X12: [each] steps the statement once per pull and fetches nothing
    ahead.  At whatever point of an iteration over the arguments [args],
    a [next()] on a generator not yet started makes the column-name fetch
    and, when that returns, exactly one get-one call; if the fetch throws,
    the [next()] throws after that one call.  A [next()] on a generator at
    the [yield] makes exactly one get-one call, and a completed generator
    makes none.  Every get-one call of the iteration carries the bind
    parameters normalized from [args]. *)
Theorem each_steps_once_per_pull (v : Variant) (args : list JsValue)
    generator (w : World N) :
  pulled nativeDatabase nativeStatement v args generator →
  match generator with
  | SuspendedStart _ =>
      match native_getColumnNames' v (handle w) with
      | (Normal _, _) =>
          calls (next' v generator w).2 =
          calls w ++ [MkCall (getColumnNames_method v) None;
                      MkCall (get_method v (shouldPassAsObject
                                              (normalizeParams args)))
                             (Some (params (normalizeParams args)))]
      | (Throw e, n1) =>
          next' v generator w =
          (Throw e, Completed,
           MkWorld n1 (calls w ++ [MkCall (getColumnNames_method v) None]))
      end
  | SuspendedYield _ _ _ =>
      calls (next' v generator w).2 =
      calls w ++ [MkCall (get_method v (shouldPassAsObject
                                          (normalizeParams args)))
                         (Some (params (normalizeParams args)))]
  | Completed => next' v generator w = (Normal Done, Completed, w)
  end.
Proof.
  intros Hpulled.
  destruct (pulled_holds_normalized _ _ _ Hpulled)
    as [-> | [[columnNames ->] | ->]].
  - destruct (native_getColumnNames' v (handle w)) as [[columnNames|e] n1]
      eqn:Hnames.
    + rewrite <- (FacadeProps.each_start v args).
      destruct w as [n0 log]. cbn [handle] in Hnames.
      rewrite (FacadeProps.each_next_start _ _ v args n0 n1 log _ Hnames).
      rewrite FacadeProps.each_next_yield_calls. cbn [calls].
      by rewrite <- app_assoc.
    + rewrite <- (FacadeProps.each_start v args), each_first_turn.
      rewrite FacadeProps.getColumnNames_invoke.
      by rewrite (FacadeProps.invoke_eq _ _ _ w _ _ Hnames).
  - apply FacadeProps.each_next_yield_calls.
  - by destruct v.
Qed.

End Statement.

Section Run.

Context {Database N : Type}.
Variable nativeDatabase : Database.
Variable nativeStatement : NativeExecution Database N.

Import SQLiteStatementRun.

(** X11: [run] reaches the name-bound native method exactly for a call
    with one argument that is an object and not an array, handing it that
    object; every other call reaches the array-bound method with an array,
    which for two or more arguments is the argument list and for no
    argument is empty.  What [run] returns or throws, and the state it
    leaves, are the native method's. *)
Theorem run_dispatch (v : Variant) (args : list JsValue) (n : N) :
  (∀ properties,
      args = [JsObject properties] →
      run nativeDatabase nativeStatement v args n =
      native_objectRun nativeDatabase nativeStatement v
        (JsObject properties) n) ∧
  ((∀ properties, args ≠ [JsObject properties]) →
   ∃ elements,
     params (normalizeParams args) = JsArray elements ∧
     run nativeDatabase nativeStatement v args n =
     native_arrayRun nativeDatabase nativeStatement v (JsArray elements) n ∧
     (1 < length args → elements = args) ∧
     (args = [] → elements = [])).
Proof.
  split.
  - intros properties ->. by destruct v.
  - intros Hpositional.
    assert (shouldPassAsObject (normalizeParams args) = false) as Hflag.
    { destruct (shouldPassAsObject (normalizeParams args)) eqn:Hflag;
        [|reflexivity].
      apply NormalizerForms.named_iff in Hflag as [properties ->].
      by destruct (Hpositional properties). }
    destruct (NormalizerForms.positional_is_array args Hflag)
      as [elements Helements].
    exists elements. split; [exact Helements | split; [|split]].
    + destruct v; unfold run, runSync, runAsync;
        by rewrite Hflag, Helements.
    + intros Hlen. destruct args as [|v1 [|v2 rest]];
        [simpl in Hlen; lia | simpl in Hlen; lia |].
      rewrite NormalizerForms.normalizeParams_variadic in Helements.
      by injection Helements.
    + intros ->. by injection Helements.
Qed.

End Run.

(** A statement with two rows of two columns. *)
Lemma all_agrees_with_each_witness :
  let cursor :=
    Scripted.MkCursor ["a"; "b"]
      [[JsNumber 1; JsNumber 2]; [JsNumber 3; JsNumber 4]] Null in
  ∃ composed w w',
    all () Scripted.statement Suspending [] (Scripted.world cursor) =
      (Normal composed, w) ∧
    collect (each_next_of () Scripted.statement Suspending) 3
            (each Suspending []) (Scripted.world cursor) [] =
      Some (Normal composed, Completed, w') ∧
    length composed = 2.
Proof.
  intros cursor.
  refine (all_agrees_with_each () Scripted.statement Suspending []
            cursor cursor (Scripted.MkCursor ["a"; "b"] [] Null)
            (Scripted.MkCursor ["a"; "b"] [] Null) [] ["a"; "b"]
            [[JsNumber 1; JsNumber 2]; [JsNumber 3; JsNumber 4]] 3
            eq_refl _ eq_refl _).
  - repeat (eapply result_set_row; [reflexivity | reflexivity |]).
    eapply result_set_end; reflexivity.
  - simpl. lia.
Defined.

(** A statement whose second row is one value short. *)
Lemma all_returns_where_each_throws_witness :
  let cursor :=
    Scripted.MkCursor ["a"; "b"]
      [[JsNumber 1; JsNumber 2]; [JsNumber 3]] Null in
  (∃ composed w,
      all () Scripted.statement Blocking [] (Scripted.world cursor) =
        (Normal composed, w) ∧
      length composed = 2) ∧
  (∃ w',
      drain (each_next_of () Scripted.statement Blocking) 2
            (each Blocking []) (Scripted.world cursor) [] =
      Some ([ {["a" := JsNumber 1; "b" := JsNumber 2]} ],
            Throw (Error "Column names and values count mismatch. Names: 2, Values: 1"),
            Completed, w')).
Proof.
  intros cursor.
  refine (all_returns_where_each_throws () Scripted.statement Blocking []
            cursor cursor (Scripted.MkCursor ["a"; "b"] [[JsNumber 3]] Null)
            (Scripted.MkCursor ["a"; "b"] [] Null)
            (Scripted.MkCursor ["a"; "b"] [] Null) [] ["a"; "b"]
            [[JsNumber 1; JsNumber 2]] [JsNumber 3] [] 2
            eq_refl _ _ _ _ eq_refl eq_refl _).
  - discriminate.
  - by constructor.
  - simpl. lia.
  - eapply stepped_cons; [reflexivity | apply stepped_nil].
  - simpl. lia.
Defined.


(** A loop that ends by an exception of the engine. *)
Lemma loop_leaves_generator_completed_witness :
  ∃ generator w,
    collect (each_next_of () Faulty.statement Blocking) 1
            (each Blocking []) (MkWorld (Faulty.MkFault false true) []) [] =
      Some (Throw Faulty.engine_error, generator, w) ∧
    collect (each_next_of () Faulty.statement Blocking) 1 generator w [] =
      Some (Normal [], Completed, w).
Proof.
  do 2 eexists. split; [reflexivity|].
  refine (proj2 (loop_leaves_generator_completed () Faulty.statement
                   Blocking 1 (each Blocking [])
                   (MkWorld (Faulty.MkFault false true) []) []
                   _ _ _ eq_refl) 0).
Defined.

(** The two positional forms of the documentation of the bind
    parameters. *)
Lemma variadic_call_is_array_call_witness :
  let cursor := Scripted.MkCursor ["value"; "intValue"] [] Null in
  get () Scripted.statement Suspending [JsString "test1"; JsNumber 789]
      (Scripted.world cursor) =
  get () Scripted.statement Suspending
      [JsArray [JsString "test1"; JsNumber 789]] (Scripted.world cursor).
Proof.
  intros cursor.
  refine (proj1 (variadic_call_is_array_call () Scripted.statement Suspending
                   [JsString "test1"; JsNumber 789] (Scripted.world cursor) _)).
  left. simpl. lia.
Defined.

(** The second pull of an iteration over a statement with two rows. *)
Lemma each_steps_once_per_pull_witness :
  let cursor :=
    Scripted.MkCursor ["a"] [[JsNumber 1]; [JsNumber 2]] Null in
  ∃ row generator w,
    each_next_of () Scripted.statement Blocking
      (each Blocking [JsNumber 5]) (Scripted.world cursor) =
      (Normal (Yielded row), generator, w) ∧
    calls (each_next_of () Scripted.statement Blocking generator w).2 =
      calls w ++ [MkCall ArrayGetSync (Some (JsArray [JsNumber 5]))].
Proof.
  intros cursor. do 3 eexists. split; [reflexivity|].
  refine (each_steps_once_per_pull () Scripted.statement Blocking
            [JsNumber 5] (SuspendedYield false (JsArray [JsNumber 5]) ["a"])
            _ _).
  eapply pulled_next; [apply pulled_start|].
  instantiate (3 := Scripted.world cursor). reflexivity.
Defined.

End StatementProps.
